(** * Telemetry reconciliation core of the motor dashboard

    A shallow embedding of the state logic of
    [motor-speed-frontend/src/components/MainDashboard.tsx] (the same code
    appears in [App.tsx]): the React state updaters that reconcile pushed
    readings and alerts, the snapshot handler, the derived extrema, and the
    reconnect policy handed to SignalR.

    Conventions.
    - A JavaScript array is a [list]; [a[i]] is stdpp's [l !! i] and the
      assignment [a[i] = x] is [<[i:=x]> l].
    - [findIndex] keeps JavaScript's [-1] sentinel, so indices are in [Z].
    - [id] and [timestamp] arrive as JSON strings and are compared with
      [===], which on strings is equality of contents.
    - [speed] and [temperature] arrive as JSON numbers.  JSON carries neither
      NaN nor an infinity, and on finite doubles [<] and [>] are the order of
      the rationals they denote, so these fields are in [Q]. *)

From Stdlib Require Import ZArith NArith QArith Lia Lqa.
From Stdlib Require Import String.
From stdpp Require Import base list strings.

Local Open Scope Z_scope.

(** ** Data model *)

(** Modelled from the spec: the [Alert] and [MotorReading] interfaces of
    [src/types] are not part of the sources at hand; the records below carry
    the fields the spec's data model lists (the optional secondary sensor
    fields of a reading play no part in the state logic and are left out). *)
Inductive MotorStatus : Type :=
  | normal
  | warning
  | critical
  | maintenance.

Record MotorReading : Type := mkReading {
  id : string;
  timestamp : string;
  speed : Q;
  temperature : Q;
  status : MotorStatus
}.

Module Alert.
Record t : Type := mk {
  id : string;
  message : string;
  acknowledged : bool;
  createdAt : string
}.
End Alert.

(** ** JavaScript array primitives *)

Section Arrays.
Context {A : Type}.

(** Position of the first element satisfying [p], if any. *)
Fixpoint first_index (p : A → bool) (l : list A) : option nat :=
  match l with
  | [] => None
  | x :: l' => if p x then Some O else S <$> first_index p l'
  end.

(** [Array.prototype.findIndex]: the first index, or [-1]. *)
Definition findIndex (p : A → bool) (l : list A) : Z :=
  match first_index p l with
  | Some i => Z.of_nat i
  | None => -1
  end.

(** [Array.prototype.find]: [None] stands for [undefined]. *)
Definition find (p : A → bool) (l : list A) : option A := List.find p l.

(** [copy[i] = x] on a fresh copy of [l].  Every index written by the
    updaters comes from a successful [findIndex], hence lies inside the
    array (lemma [findIndex_bounds]); there the assignment overwrites one
    cell, which is what stdpp's insert does. *)
Definition array_set (l : list A) (i : Z) (x : A) : list A :=
  <[Z.to_nat i := x]> l.

(** [Array.prototype.slice(start, end)] for integer arguments: a negative
    argument counts from the end, and both are clamped to the array. *)
Definition slice (start end_ : Z) (l : list A) : list A :=
  let len := Z.of_nat (length l) in
  let k := if start <? 0 then Z.max (len + start) 0 else Z.min start len in
  let final := if end_ <? 0 then Z.max (len + end_) 0 else Z.min end_ len in
  take (Z.to_nat (final - k)) (drop (Z.to_nat k) l).

(** [Array.prototype.reduce] without an initial value: the first element
    seeds the accumulator; on an empty array it throws ([None]). *)
Definition reduce (f : A → A → A) (l : list A) : option A :=
  match l with
  | [] => None
  | x :: l' => Some (fold_left f l' x)
  end.
End Arrays.

(** ** Comparisons of JSON numbers *)

(** [a < b] on finite numbers. *)
Definition num_lt (a b : Q) : bool := negb (Qle_bool b a).

(** [a > b] on finite numbers. *)
Definition num_gt (a b : Q) : bool := num_lt b a.

(** ** Derived extrema (MainDashboard.tsx, lines 128-140) *)

Definition highestTemp (readings : list MotorReading) : option MotorReading :=
  if (length readings =? 0)%nat then None
  else reduce (λ a b, if num_gt (temperature a) (temperature b) then a else b) readings.

Definition lowestTemp (readings : list MotorReading) : option MotorReading :=
  if (length readings =? 0)%nat then None
  else reduce (λ a b, if num_lt (temperature a) (temperature b) then a else b) readings.

Definition highestRpm (readings : list MotorReading) : option MotorReading :=
  if (length readings =? 0)%nat then None
  else reduce (λ a b, if num_gt (speed a) (speed b) then a else b) readings.

Definition lowestRpm (readings : list MotorReading) : option MotorReading :=
  if (length readings =? 0)%nat then None
  else reduce (λ a b, if num_lt (speed a) (speed b) then a else b) readings.

(** ** Alert registry *)

(** [acknowledgeAlert] (lines 154-161): the updater passed to [setAlerts]. *)
Definition acknowledgeAlert (alertId : string) (prev : list Alert.t) : list Alert.t :=
  map (λ alert,
         if String.eqb (Alert.id alert) alertId
         then Alert.mk (Alert.id alert) (Alert.message alert) true (Alert.createdAt alert)
         else alert)
      prev.

(** The [NewAlert] handler (lines 233-243): the updater passed to
    [setAlerts].  An alert object is truthy, so [if (existingAlert)] tests
    whether [find] returned one. *)
Definition onNewAlert (alert : Alert.t) (prev : list Alert.t) : list Alert.t :=
  match find (λ a, String.eqb (Alert.id a) (Alert.id alert)) prev with
  | Some _ => prev
  | None => alert :: prev
  end.

(** ** Reading reconciler *)

(** The [NewReading] handler (lines 194-223): the updater passed to
    [setReadings], with [maxReadings] captured from the enclosing effect. *)
Definition onNewReading (maxReadings : Z) (reading : MotorReading)
    (r : list MotorReading) : list MotorReading :=
  let existingIndex := findIndex (λ existing, String.eqb (id existing) (id reading)) r in
  if negb (existingIndex =? -1) then
    let newReadings := r in
    array_set newReadings existingIndex reading
  else
    let duplicateTimestamp :=
      find (λ existing, String.eqb (timestamp existing) (timestamp reading)) r in
    match duplicateTimestamp with
    | Some _ =>
        let timestampIndex :=
          findIndex (λ existing, String.eqb (timestamp existing) (timestamp reading)) r in
        let newReadings := r in
        array_set newReadings timestampIndex reading
    | None => slice 0 maxReadings (reading :: r)
    end.

(** The snapshot handler (lines 164-170): [setReadings(res.data)] is given a
    value, not an updater, so the previous buffer plays no part. *)
Definition onSnapshot (data : list MotorReading) (r : list MotorReading)
    : list MotorReading := data.

(** ** Reconnect policy (lines 179-189) *)

(** [previousRetryCount] is SignalR's count of retries so far, a natural
    number.  [Math.pow(2, n)] is exact in a double up to [n = 1023] and an
    infinity from there on; in both cases [Math.min] with [30000] returns
    what the integer formula below returns. *)
Definition nextRetryDelayInMilliseconds (previousRetryCount : N) : N :=
  if (previousRetryCount =? 0)%N then 0%N
  else N.min (1000 * 2 ^ previousRetryCount) 30000.

(** ** The component state and its events *)

Record AppState : Type := mkState {
  readings : list MotorReading;
  alerts : list Alert.t;
  loading : bool;
  signalRConnected : bool
}.

(** [useState] initial values in [App]. *)
Definition initialState : AppState :=
  {| readings := []; alerts := []; loading := true; signalRConnected := false |}.

Inductive Event : Type :=
  | SnapshotLoaded (data : list MotorReading)
  | SnapshotFailed
  | NewReading (reading : MotorReading)
  | NewAlert (alert : Alert.t)
  | AcknowledgeAlert (alertId : string)
  | HubStarted
  | HubStartFailed
  | HubClosed
  | HubReconnecting
  | HubReconnected.

(** One event handled to completion, under the [maxReadings] the running
    effect captured.  The refresh of the dashboard statistics and the
    high-temperature advisory that a pushed reading also triggers touch
    display state only and are not part of [AppState]. *)
Definition step (maxReadings : Z) (s : AppState) (e : Event) : AppState :=
  match e with
  | SnapshotLoaded data =>
      mkState (onSnapshot data (readings s)) (alerts s) false (signalRConnected s)
  | SnapshotFailed =>
      mkState (readings s) (alerts s) false (signalRConnected s)
  | NewReading reading =>
      mkState (onNewReading maxReadings reading (readings s)) (alerts s)
              (loading s) (signalRConnected s)
  | NewAlert alert =>
      mkState (readings s) (onNewAlert alert (alerts s)) (loading s) (signalRConnected s)
  | AcknowledgeAlert alertId =>
      mkState (readings s) (acknowledgeAlert alertId (alerts s)) (loading s)
              (signalRConnected s)
  | HubStarted | HubReconnected =>
      mkState (readings s) (alerts s) (loading s) true
  | HubStartFailed | HubClosed | HubReconnecting =>
      mkState (readings s) (alerts s) (loading s) false
  end.

(** A run of pushed readings through the reconciler, oldest event first. *)
Definition upserts (maxReadings : Z) (xs : list MotorReading)
    (r : list MotorReading) : list MotorReading :=
  fold_left (λ buf x, onNewReading maxReadings x buf) xs r.

(** ** Sample data used by the worked examples *)

Module Samples.
Definition reading (i t : string) (rpm temp : Z) : MotorReading :=
  mkReading i t (inject_Z rpm) (inject_Z temp) normal.

(** The readings of the spec's upsert examples. *)
Definition A : MotorReading := reading "1" "10" 1200 60.
Definition A' : MotorReading := reading "1" "15" 1250 61.
Definition B : MotorReading := reading "2" "20" 1300 62.
Definition C : MotorReading := reading "3" "30" 1400 63.
(** Same id as [A], same timestamp as [B]. *)
Definition X : MotorReading := reading "1" "20" 1500 64.

(** The buffer of the spec's extrema example, with ids to tell the two
    hottest readings apart. *)
Definition hot1 : MotorReading := reading "h1" "t1" 1000 90.
Definition cold : MotorReading := reading "c" "t2" 2000 20.
Definition hot2 : MotorReading := reading "h2" "t3" 3000 90.

Definition alert (i : string) (ack : bool) : Alert.t :=
  Alert.mk i "overheating" ack "2024-01-01T00:00:00Z".
End Samples.

(** The tests the handler applies to an existing entry:
    [existing.id === reading.id] and
    [existing.timestamp === reading.timestamp]. *)
Definition has_id (reading existing : MotorReading) : bool :=
  String.eqb (id existing) (id reading).

Definition has_timestamp (reading existing : MotorReading) : bool :=
  String.eqb (timestamp existing) (timestamp reading).

(** ** Uniqueness of the dedup keys *)

(** The buffer invariant of the data model: no id and no timestamp occurs
    twice. *)
Definition keys_unique (r : list MotorReading) : Prop :=
  NoDup (id <$> r) ∧ NoDup (timestamp <$> r).

(** An incoming reading clashes with the buffer when its id is already
    there while an entry with another id holds its timestamp. *)
Definition timestamp_clash (reading : MotorReading) (r : list MotorReading) : bool :=
  existsb (has_id reading) r &&
  existsb (λ existing, negb (has_id reading existing) && has_timestamp reading existing) r.

(** No reading of the run clashes with the buffer it meets. *)
Fixpoint clash_free (maxReadings : Z) (xs : list MotorReading)
    (r : list MotorReading) : bool :=
  match xs with
  | [] => true
  | x :: xs' =>
      negb (timestamp_clash x r) && clash_free maxReadings xs' (onNewReading maxReadings x r)
  end.

(** ** What the spec asks of the snapshot *)

(** Reconciling a snapshot with readings that were pushed before it arrived
    keeps each of them represented: every id of the buffer before is an id of
    the buffer after. *)
Definition streamed_readings_kept (before after : list MotorReading) : Prop :=
  ∀ e, e ∈ before → ∃ e', e' ∈ after ∧ id e' = id e.

(** The capacity bound of the data model. *)
Definition within_capacity (maxReadings : Z) (s : AppState) : Prop :=
  Z.of_nat (length (readings s)) ≤ maxReadings.

(** ** What it means to be the extremum of a buffer *)

Section ExtremumSpec.
Context {A : Type} (key : A → Q).

(** [m] sits in [l], no entry has a larger key, and every entry behind it
    has a strictly smaller one: [m] is the last entry with the largest
    key. *)
Definition is_last_max (l : list A) (m : A) : Prop :=
  ∃ i, l !! i = Some m ∧
       (∀ e, e ∈ l → (key e <= key m)%Q) ∧
       (∀ j e, l !! j = Some e → (i < j)%nat → (key e < key m)%Q).

(** The same towards the smallest key. *)
Definition is_last_min (l : list A) (m : A) : Prop :=
  ∃ i, l !! i = Some m ∧
       (∀ e, e ∈ l → (key m <= key e)%Q) ∧
       (∀ j e, l !! j = Some e → (i < j)%nat → (key m < key e)%Q).

(** [m] is the first entry with the largest key: this is the tie-break
    the spec words. *)
Definition is_first_max (l : list A) (m : A) : Prop :=
  ∃ i, l !! i = Some m ∧
       (∀ e, e ∈ l → (key e <= key m)%Q) ∧
       (∀ j e, l !! j = Some e → (j < i)%nat → (key e < key m)%Q).
End ExtremumSpec.

(** ** Runs of events *)

(** The events of a session handled one after the other. *)
Definition run (maxReadings : Z) (es : list Event) (s : AppState) : AppState :=
  fold_left (step maxReadings) es s.

(** The events whose handlers call [setReadings], [setAlerts],
    [setLoading] and [setSignalRConnected]. *)
Definition touches_readings (e : Event) : bool :=
  match e with
  | SnapshotLoaded _ | NewReading _ => true
  | _ => false
  end.

Definition touches_alerts (e : Event) : bool :=
  match e with
  | NewAlert _ | AcknowledgeAlert _ => true
  | _ => false
  end.

Definition snapshot_outcome (e : Event) : bool :=
  match e with
  | SnapshotLoaded _ | SnapshotFailed => true
  | _ => false
  end.

(** What a connection callback passes to [setSignalRConnected]. *)
Definition connection_signal (e : Event) : option bool :=
  match e with
  | HubStarted | HubReconnected => Some true
  | HubStartFailed | HubClosed | HubReconnecting => Some false
  | _ => None
  end.

(** ** Severity tiers of the extrema cards (lines 610-622, 654-666,
    698-714, 746-762) *)

Inductive HighTempTier : Type := TempCritical | TempWarning | TempNormal.
Inductive LowTempTier : Type := TempCold | TempOptimal | TempWarm.
Inductive HighRpmTier : Type := RpmOverload | RpmHigh | RpmOptimal | RpmLow.
Inductive LowRpmTier : Type := RpmStallRisk | RpmLowRange | RpmIdle | RpmNormal.

(** The badge under "Highest Temp". *)
Definition highTempTier (t : Q) : HighTempTier :=
  if num_gt t 85 then TempCritical
  else if num_gt t 75 then TempWarning
  else TempNormal.

(** The badge under "Lowest Temp". *)
Definition lowTempTier (t : Q) : LowTempTier :=
  if num_lt t 30 then TempCold
  else if num_lt t 50 then TempOptimal
  else TempWarm.

(** The badge under "Highest RPM". *)
Definition highRpmTier (v : Q) : HighRpmTier :=
  if num_gt v 3000 then RpmOverload
  else if num_gt v 2500 then RpmHigh
  else if num_gt v 1500 then RpmOptimal
  else RpmLow.

(** The badge under "Lowest RPM". *)
Definition lowRpmTier (v : Q) : LowRpmTier :=
  if num_lt v 500 then RpmStallRisk
  else if num_lt v 1000 then RpmLowRange
  else if num_lt v 1500 then RpmIdle
  else RpmNormal.

(** The test of the [NewReading] handler (line 228) that raises the
    high-temperature advisory through [setAlert]. *)
Definition raisesHighTempAdvisory (reading : MotorReading) : bool :=
  num_gt (temperature reading) 80.

(** ** The sample controls (lines 353-359 and 862-865) *)

(** [isGenerating] and [fastSpinCount] are the component's state.
    [renderedGenerating] is the [isGenerating] that the last render captured
    in the [onClick] closure: the guard [if (isGenerating) return] reads that
    value, not the state a previous click has set in the meantime.  The two
    counters record the effects the handlers fire: the GET requests sent to
    [/api/motor/sample] and the one-second timers still to run. *)
Record ControlState : Type := mkControl {
  isGenerating : bool;
  renderedGenerating : bool;
  fastSpinCount : N;
  sampleRequests : N;
  pendingTimers : N
}.

Definition initialControl : ControlState := mkControl false false 0 0 0.

Inductive ControlEvent : Type :=
  | GenerateClicked
  | GenerateTimerFired
  | MobileRefresh
  | Rendered.

Definition controlStep (c : ControlState) (e : ControlEvent) : ControlState :=
  match e with
  | GenerateClicked =>
      if renderedGenerating c then c
      else mkControl true (renderedGenerating c) (fastSpinCount c + 1)
                     (sampleRequests c + 1) (pendingTimers c + 1)
  | GenerateTimerFired =>
      (* a timer can only fire once it has been set *)
      if (pendingTimers c =? 0)%N then c
      else mkControl false (renderedGenerating c) (fastSpinCount c)
                     (sampleRequests c) (pendingTimers c - 1)
  | MobileRefresh =>
      mkControl (isGenerating c) (renderedGenerating c) (fastSpinCount c + 1)
                (sampleRequests c + 1) (pendingTimers c)
  | Rendered =>
      (* the component re-renders and the handler closes over the state *)
      mkControl (isGenerating c) (isGenerating c) (fastSpinCount c)
                (sampleRequests c) (pendingTimers c)
  end.

Definition controlRun (es : list ControlEvent) (c : ControlState) : ControlState :=
  fold_left controlStep es c.


(** * Properties *)

(** Closed decidable side conditions are settled by evaluation. *)
Ltac by_compute := apply (bool_decide_unpack _); vm_compute; exact I.

(** ** Array primitives *)

Section ArrayFacts.
Context {A : Type}.
Implicit Types (p : A → bool) (l : list A).

Lemma first_index_Some p l i :
  first_index p l = Some i ↔
  ∃ x, l !! i = Some x ∧ p x = true ∧
       ∀ j y, (j < i)%nat → l !! j = Some y → p y = false.
Proof.
  revert i. induction l as [|a l IH]; intros i; simpl.
  - split; [discriminate | intros (x & Hx & _); discriminate].
  - destruct (p a) eqn:Hpa.
    + split.
      * intros [= <-]. exists a. repeat split; [done | lia].
      * intros (x & Hx & Hpx & Hfirst). destruct i as [|i]; [done|].
        specialize (Hfirst O a). simpl in Hfirst.
        rewrite Hfirst in Hpa; [discriminate | lia | done].
    + destruct (first_index p l) as [k|] eqn:Hk; simpl.
      * split.
        -- intros [= <-]. destruct (proj1 (IH k) eq_refl) as (x & Hx & Hpx & Hfirst).
           exists x. repeat split; [done..|].
           intros [|j] y Hj Hy; simpl in Hy; [congruence|].
           apply (Hfirst j); [lia | done].
        -- intros (x & Hx & Hpx & Hfirst). destruct i as [|i]; simpl in Hx.
           { congruence. }
           f_equal. assert (Some k = Some i) as [= ->]; [|done].
           apply IH. exists x. repeat split; [done..|].
           intros j y Hj Hy. apply (Hfirst (S j)); [lia | done].
      * split; [discriminate|].
        intros (x & Hx & Hpx & Hfirst). destruct i as [|i]; simpl in Hx.
        { congruence. }
        assert (None = Some i) as Hno; [|discriminate].
        apply IH. exists x. repeat split; [done..|].
        intros j y Hj Hy. apply (Hfirst (S j)); [lia | done].
Qed.

Lemma first_index_None p l :
  first_index p l = None ↔ ∀ x, x ∈ l → p x = false.
Proof.
  induction l as [|a l IH]; simpl.
  - split; [intros _ x Hx; inversion Hx | done].
  - destruct (p a) eqn:Hpa.
    + split; [discriminate|]. intros H. rewrite H in Hpa; [discriminate | left].
    + destruct (first_index p l) as [k|]; simpl.
      * split; [discriminate|]. intros H.
        assert (Some k = None) as Hno; [|discriminate].
        apply IH. intros x Hx. apply H. by right.
      * split; [|done]. intros _ x [->|Hx]%elem_of_cons; [done|].
        by apply IH.
Qed.

Lemma first_index_lt p l i : first_index p l = Some i → (i < length l)%nat.
Proof.
  intros (x & Hx & _)%first_index_Some. by eapply lookup_lt_Some.
Qed.

(** A successful [findIndex] is an index of the array. *)
Lemma findIndex_bounds p l :
  findIndex p l ≠ -1 → 0 ≤ findIndex p l < Z.of_nat (length l).
Proof.
  unfold findIndex. destruct (first_index p l) as [i|] eqn:Hi; [|done].
  intros _. apply first_index_lt in Hi. lia.
Qed.

Lemma findIndex_Some p l i :
  first_index p l = Some i → findIndex p l = Z.of_nat i ∧ findIndex p l ≠ -1.
Proof. unfold findIndex. intros ->. lia. Qed.

Lemma findIndex_None p l : first_index p l = None → findIndex p l = -1.
Proof. unfold findIndex. by intros ->. Qed.

(** [find] and [findIndex] succeed together. *)
Lemma find_first_index p l :
  find p l = (first_index p l ≫= λ i, l !! i).
Proof.
  unfold find. induction l as [|a l IH]; simpl; [done|].
  destruct (p a); [done|]. rewrite IH.
  by destruct (first_index p l).
Qed.

Lemma find_None_first_index p l :
  find p l = None ↔ first_index p l = None.
Proof.
  rewrite find_first_index. destruct (first_index p l) as [i|] eqn:Hi; simpl; [|done].
  split; [|discriminate]. intros Hno.
  apply first_index_Some in Hi as (x & Hx & _). congruence.
Qed.

Lemma slice_prefix_nonneg (n : Z) l :
  0 ≤ n → slice 0 n l = take (Z.to_nat n) l.
Proof.
  intros Hn. unfold slice. cbv zeta.
  change (0 <? 0) with false. cbv iota.
  destruct (Z.ltb_spec n 0) as [|_]; [lia|].
  rewrite (Z.min_l 0) by lia. change (Z.to_nat 0) with O. rewrite drop_0, Z.sub_0_r.
  destruct (Z.le_ge_cases n (Z.of_nat (length l))).
  - by rewrite Z.min_l by lia.
  - rewrite Z.min_r by lia. rewrite Nat2Z.id.
    rewrite !take_ge; [done | lia | lia].
Qed.

Lemma slice_prefix_neg (n : Z) l :
  n < 0 → slice 0 n l = take (length l - Z.to_nat (- n)) l.
Proof.
  intros Hn. unfold slice. cbv zeta.
  change (0 <? 0) with false. cbv iota.
  destruct (Z.ltb_spec n 0) as [_|]; [|lia].
  rewrite (Z.min_l 0) by lia. change (Z.to_nat 0) with O. rewrite drop_0, Z.sub_0_r.
  f_equal. lia.
Qed.

(** [slice(0, n)] always keeps a front segment of the array. *)
Lemma slice_is_take (n : Z) l : ∃ k, slice 0 n l = take k l.
Proof.
  destruct (Z.lt_ge_cases n 0).
  - eexists. by apply slice_prefix_neg.
  - eexists. by apply slice_prefix_nonneg.
Qed.

Lemma array_set_nat l (i : nat) x : array_set l (Z.of_nat i) x = <[i:=x]> l.
Proof. unfold array_set. by rewrite Nat2Z.id. Qed.
End ArrayFacts.

(** ** Reading reconciler: the three branches *)

Lemma has_id_true x y : has_id x y = true ↔ id y = id x.
Proof. apply String.eqb_eq. Qed.

Lemma has_id_false x y : has_id x y = false ↔ id y ≠ id x.
Proof. apply String.eqb_neq. Qed.

Lemma has_timestamp_true x y : has_timestamp x y = true ↔ timestamp y = timestamp x.
Proof. apply String.eqb_eq. Qed.

Lemma has_timestamp_false x y : has_timestamp x y = false ↔ timestamp y ≠ timestamp x.
Proof. apply String.eqb_neq. Qed.

Section Reconciler.
Implicit Types (r : list MotorReading) (x : MotorReading) (cap : Z).

Lemma onNewReading_id_hit cap x r i :
  first_index (has_id x) r = Some i →
  onNewReading cap x r = <[i:=x]> r.
Proof.
  intros Hi. unfold onNewReading. fold (has_id x).
  destruct (findIndex_Some _ _ _ Hi) as [Heq Hne].
  apply Z.eqb_neq in Hne. rewrite Hne. simpl.
  rewrite Heq. apply array_set_nat.
Qed.

Lemma onNewReading_timestamp_hit cap x r j :
  first_index (has_id x) r = None →
  first_index (has_timestamp x) r = Some j →
  onNewReading cap x r = <[j:=x]> r.
Proof.
  intros Hi Hj. unfold onNewReading. fold (has_id x) (has_timestamp x).
  rewrite (findIndex_None _ _ Hi). simpl.
  destruct (find (has_timestamp x) r) eqn:Hfind.
  - destruct (findIndex_Some _ _ _ Hj) as [-> _]. apply array_set_nat.
  - apply find_None_first_index in Hfind. congruence.
Qed.

Lemma onNewReading_novel cap x r :
  first_index (has_id x) r = None →
  first_index (has_timestamp x) r = None →
  onNewReading cap x r = slice 0 cap (x :: r).
Proof.
  intros Hi Hj. unfold onNewReading. fold (has_id x) (has_timestamp x).
  rewrite (findIndex_None _ _ Hi). simpl.
  apply find_None_first_index in Hj. by rewrite Hj.
Qed.

(** The handler always takes one of the three branches. *)
Lemma onNewReading_cases cap x r :
  (∃ i, first_index (has_id x) r = Some i ∧ onNewReading cap x r = <[i:=x]> r) ∨
  (∃ j, first_index (has_id x) r = None ∧
        first_index (has_timestamp x) r = Some j ∧
        onNewReading cap x r = <[j:=x]> r) ∨
  (first_index (has_id x) r = None ∧
   first_index (has_timestamp x) r = None ∧
   onNewReading cap x r = slice 0 cap (x :: r)).
Proof.
  destruct (first_index (has_id x) r) as [i|] eqn:Hi.
  { left. exists i. split; [done|]. by apply onNewReading_id_hit. }
  right. destruct (first_index (has_timestamp x) r) as [j|] eqn:Hj.
  - left. exists j. split_and!; [done..|]. by apply onNewReading_timestamp_hit.
  - right. split_and!; [done..|]. by apply onNewReading_novel.
Qed.

(** Length: a replacement keeps it, a novel reading adds one and then
    cuts back to the capacity. *)
Lemma onNewReading_length_le cap x r :
  Z.of_nat (length r) ≤ cap →
  Z.of_nat (length (onNewReading cap x r)) ≤ cap.
Proof.
  intros Hlen.
  destruct (onNewReading_cases cap x r)
    as [(i & _ & ->) | [(j & _ & _ & ->) | (_ & _ & ->)]].
  - by rewrite length_insert.
  - by rewrite length_insert.
  - rewrite slice_prefix_nonneg by lia. rewrite length_take. lia.
Qed.
End Reconciler.

Example upsert_same_id :
  onNewReading 100 Samples.A' [Samples.A; Samples.B] = [Samples.A'; Samples.B].
Proof. reflexivity. Qed.

Example upsert_same_timestamp :
  onNewReading 100 (Samples.reading "9" "20" 0 0) [Samples.A; Samples.B]
  = [Samples.A; Samples.reading "9" "20" 0 0].
Proof. reflexivity. Qed.

Example upsert_novel_evicts :
  onNewReading 2 Samples.C [Samples.B; Samples.A] = [Samples.C; Samples.B].
Proof. reflexivity. Qed.

Example upsert_id_hit_ignores_timestamps :
  onNewReading 100 Samples.X [Samples.B; Samples.A] = [Samples.B; Samples.X].
Proof. reflexivity. Qed.

(** ** Capacity bound along a run of upserts *)

(** C5.  For every sequence of upserts, whatever branch each one takes,
    started on a buffer no longer than the capacity, the resulting buffer
    is no longer than the capacity. *)
Theorem upserts_length_le_capacity (cap : Z) (xs r : list MotorReading) :
  Z.of_nat (length r) ≤ cap →
  Z.of_nat (length (upserts cap xs r)) ≤ cap.
Proof.
  revert r. induction xs as [|x xs IH]; intros r Hlen; simpl; [done|].
  apply IH. by apply onNewReading_length_le.
Qed.

Lemma upserts_length_le_capacity_witness :
  Z.of_nat (length [Samples.B; Samples.A]) ≤ 2 ∧
  Z.of_nat (length (upserts 2 [Samples.A'; Samples.C; Samples.X]
                            [Samples.B; Samples.A])) ≤ 2.
Proof.
  split; [simpl; lia|].
  apply (upserts_length_le_capacity 2 [Samples.A'; Samples.C; Samples.X]
                                    [Samples.B; Samples.A]).
  simpl; lia.
Defined.

(** ** Replacement in place *)

Lemma unique_id_is_first (r : list MotorReading) (x e : MotorReading) (i : nat) :
  NoDup (id <$> r) → r !! i = Some e → id e = id x →
  first_index (has_id x) r = Some i.
Proof.
  intros Hnodup Hi Hid. apply first_index_Some. exists e.
  split_and!; [done | by apply has_id_true |].
  intros j y Hj Hy. apply has_id_false. intros Hy'.
  assert (j = i); [|lia].
  eapply (NoDup_lookup _ j i (id x) Hnodup).
  - by rewrite list_lookup_fmap, Hy, <- Hy'.
  - by rewrite list_lookup_fmap, Hi, <- Hid.
Qed.

(** C6, as stated, fails.  In the buffer [[A; A']] both entries have id 1.
    The reading [X] has the id of the entry at index 1, yet [findIndex]
    selects index 0: the result is [[X; A']], so index 1 does not hold the
    incoming reading and the entry at index 0 has changed. *)
Lemma upsert_id_match_counterexample :
  [Samples.A; Samples.A'] !! 1%nat = Some Samples.A' ∧
  id Samples.X = id Samples.A' ∧
  onNewReading 100 Samples.X [Samples.A; Samples.A'] = [Samples.X; Samples.A'] ∧
  onNewReading 100 Samples.X [Samples.A; Samples.A'] !! 1%nat ≠ Some Samples.X ∧
  onNewReading 100 Samples.X [Samples.A; Samples.A'] !! 0%nat
  ≠ [Samples.A; Samples.A'] !! 0%nat.
Proof. split_and!; (reflexivity || discriminate). Qed.

(** C6, amended.  In a buffer whose ids are pairwise distinct, if the
    incoming reading has the id of the entry at index [i], the result is the
    old buffer with index [i] overwritten by the incoming reading: same
    length, the incoming reading at [i], every other index untouched. *)
Theorem upsert_id_match_replaces_in_place
    (cap : Z) (x e : MotorReading) (r : list MotorReading) (i : nat) :
  NoDup (id <$> r) → r !! i = Some e → id e = id x →
  onNewReading cap x r = <[i:=x]> r ∧
  length (onNewReading cap x r) = length r ∧
  onNewReading cap x r !! i = Some x ∧
  ∀ j, j ≠ i → onNewReading cap x r !! j = r !! j.
Proof.
  intros Hnodup Hi Hid.
  rewrite (onNewReading_id_hit cap x r i) by by eapply unique_id_is_first.
  split_and!.
  - done.
  - apply length_insert.
  - apply list_lookup_insert_eq. by eapply lookup_lt_Some.
  - intros j Hj. by apply list_lookup_insert_ne.
Qed.

Lemma upsert_id_match_replaces_in_place_witness :
  onNewReading 100 Samples.A' [Samples.A; Samples.B] = [Samples.A'; Samples.B].
Proof.
  refine (proj1 (upsert_id_match_replaces_in_place 100 Samples.A' Samples.A
                   [Samples.A; Samples.B] 0 _ _ _)).
  - by_compute.
  - reflexivity.
  - reflexivity.
Defined.

(** ** Novel readings *)

Lemma no_match_first_index {A} (p : A → bool) (l : list A) :
  (∀ e, e ∈ l → p e = false) → first_index p l = None.
Proof. apply first_index_None. Qed.

(** C7.  A reading whose id and timestamp are both absent from the buffer
    is put in front and the sequence is cut to its first [cap] elements;
    what is dropped is the tail beyond [cap], the oldest entries. *)
Theorem upsert_novel_prepends_and_truncates
    (cap : Z) (x : MotorReading) (r : list MotorReading) :
  (∀ e, e ∈ r → id e ≠ id x) →
  (∀ e, e ∈ r → timestamp e ≠ timestamp x) →
  0 ≤ cap →
  onNewReading cap x r = take (Z.to_nat cap) (x :: r) ∧
  x :: r = onNewReading cap x r ++ drop (Z.to_nat cap) (x :: r).
Proof.
  intros Hid Hts Hcap.
  assert (onNewReading cap x r = take (Z.to_nat cap) (x :: r)) as ->.
  { rewrite onNewReading_novel.
    - by apply slice_prefix_nonneg.
    - apply no_match_first_index. intros e He. apply has_id_false. auto.
    - apply no_match_first_index. intros e He. apply has_timestamp_false. auto. }
  split; [done|]. by rewrite take_drop.
Qed.

Lemma upsert_novel_prepends_and_truncates_witness :
  onNewReading 2 Samples.C [Samples.B; Samples.A] = [Samples.C; Samples.B] ∧
  [Samples.C; Samples.B; Samples.A]
  = onNewReading 2 Samples.C [Samples.B; Samples.A] ++ [Samples.A].
Proof.
  apply (upsert_novel_prepends_and_truncates 2 Samples.C [Samples.B; Samples.A]).
  - intros e He. repeat (apply elem_of_cons in He as [-> | He]);
      [discriminate.. | by apply elem_of_nil in He].
  - intros e He. repeat (apply elem_of_cons in He as [-> | He]);
      [discriminate.. | by apply elem_of_nil in He].
  - lia.
Defined.

(** ** Uniqueness of ids and timestamps *)

Section Overwrite.
Context {A : Type}.

(** Overwriting a cell with a value found nowhere else keeps a list free
    of duplicates. *)
Lemma NoDup_insert_fresh (l : list A) (i : nat) (y : A) :
  NoDup l → (∀ j, j ≠ i → l !! j ≠ Some y) → NoDup (<[i:=y]> l).
Proof.
  intros Hnodup Hfresh. apply NoDup_alt. intros a b z Ha Hb.
  apply list_lookup_insert_Some in Ha as [(-> & -> & Hlt) | (Hne & Ha)];
    apply list_lookup_insert_Some in Hb as [(-> & Hyz & Hlt') | (Hne' & Hb)].
  - done.
  - subst. by destruct (Hfresh b).
  - subst. by destruct (Hfresh a).
  - by eapply NoDup_lookup.
Qed.

Lemma NoDup_slice_front (n : Z) (l : list A) : NoDup l → NoDup (slice 0 n l).
Proof.
  intros Hnodup. destruct (slice_is_take n l) as [k ->].
  exact (sublist_NoDup _ _ Hnodup (sublist_take _ _)).
Qed.
End Overwrite.

Section Keys.
Context {K : Type} (key : MotorReading → K).
Implicit Types (r : list MotorReading) (x : MotorReading).

(** Overwriting index [i] by [x] keeps a key unique when no other entry
    carries the key of [x]. *)
Lemma key_unique_insert r i x :
  NoDup (key <$> r) →
  (∀ j y, j ≠ i → r !! j = Some y → key y ≠ key x) →
  NoDup (key <$> <[i:=x]> r).
Proof.
  intros Hnodup Hother. rewrite list_fmap_insert.
  apply NoDup_insert_fresh; [done|].
  intros j Hj Hlook. rewrite list_lookup_fmap in Hlook.
  destruct (r !! j) as [y|] eqn:Hy; [|done].
  injection Hlook as Hk. by apply (Hother j y).
Qed.

(** An entry that already carries the key of [x] can be overwritten by
    [x]. *)
Lemma key_unique_insert_same r i x e :
  NoDup (key <$> r) → r !! i = Some e → key e = key x →
  NoDup (key <$> <[i:=x]> r).
Proof.
  intros Hnodup Hi Hk. apply key_unique_insert; [done|].
  intros j y Hj Hy Hyx. apply Hj.
  eapply (NoDup_lookup _ j i (key x) Hnodup).
  - by rewrite list_lookup_fmap, Hy, <- Hyx.
  - by rewrite list_lookup_fmap, Hi, <- Hk.
Qed.

Lemma key_unique_novel cap r x :
  NoDup (key <$> r) → (∀ y, y ∈ r → key y ≠ key x) →
  NoDup (key <$> slice 0 cap (x :: r)).
Proof.
  intros Hnodup Hfresh. destruct (slice_is_take cap (x :: r)) as [k ->].
  rewrite fmap_take. eapply sublist_NoDup; [|apply sublist_take].
  simpl. apply NoDup_cons. split; [|done].
  intros (y & Hk & Hy)%list_elem_of_fmap. by apply (Hfresh y).
Qed.
End Keys.

Lemma first_index_None_id (x : MotorReading) (r : list MotorReading) :
  first_index (has_id x) r = None → ∀ y, y ∈ r → id y ≠ id x.
Proof.
  intros Hnone y Hy. apply has_id_false. by eapply first_index_None.
Qed.

Lemma first_index_None_timestamp (x : MotorReading) (r : list MotorReading) :
  first_index (has_timestamp x) r = None → ∀ y, y ∈ r → timestamp y ≠ timestamp x.
Proof.
  intros Hnone y Hy. apply has_timestamp_false. by eapply first_index_None.
Qed.

(** Ids stay pairwise distinct through every upsert. *)
Lemma onNewReading_ids_unique (cap : Z) (x : MotorReading) (r : list MotorReading) :
  NoDup (id <$> r) → NoDup (id <$> onNewReading cap x r).
Proof.
  intros Hnodup.
  destruct (onNewReading_cases cap x r)
    as [(i & Hi & ->) | [(j & Hi & Hj & ->) | (Hi & Hj & ->)]].
  - apply first_index_Some in Hi as (e & He & Hid%has_id_true & _).
    by eapply key_unique_insert_same.
  - apply key_unique_insert; [done|]. intros k y _ Hy.
    eapply first_index_None_id; [done|]. by eapply list_elem_of_lookup_2.
  - apply key_unique_novel; [done|]. by apply first_index_None_id.
Qed.

Lemma timestamp_clash_false (x : MotorReading) (r : list MotorReading) (i : nat) :
  timestamp_clash x r = false → first_index (has_id x) r = Some i →
  ∀ y, y ∈ r → id y ≠ id x → timestamp y ≠ timestamp x.
Proof.
  unfold timestamp_clash. intros Hclash Hi y Hy Hid Hts.
  apply first_index_Some in Hi as (e & He & Hide & _).
  apply andb_false_iff in Hclash as [Hno | Hno].
  - assert (existsb (has_id x) r = true); [|congruence].
    apply existsb_exists. exists e. split; [|done].
    apply list_elem_of_In. by eapply list_elem_of_lookup_2.
  - assert (existsb (λ existing, negb (has_id x existing) && has_timestamp x existing) r
            = true); [|congruence].
    apply existsb_exists. exists y. split; [by apply list_elem_of_In|].
    apply andb_true_iff. split.
    + apply negb_true_iff. by apply has_id_false.
    + by apply has_timestamp_true.
Qed.

(** Timestamps stay pairwise distinct through an upsert that does not
    clash. *)
Lemma onNewReading_timestamps_unique
    (cap : Z) (x : MotorReading) (r : list MotorReading) :
  NoDup (id <$> r) → NoDup (timestamp <$> r) → timestamp_clash x r = false →
  NoDup (timestamp <$> onNewReading cap x r).
Proof.
  intros Hids Hts Hclash.
  destruct (onNewReading_cases cap x r)
    as [(i & Hi & ->) | [(j & Hi & Hj & ->) | (Hi & Hj & ->)]].
  - apply key_unique_insert; [done|]. intros k y Hk Hy.
    eapply timestamp_clash_false; [done.. | by eapply list_elem_of_lookup_2 |].
    intros Hid. apply Hk.
    apply first_index_Some in Hi as (e & He & Hide%has_id_true & _).
    eapply (NoDup_lookup _ k i (id x) Hids).
    + by rewrite list_lookup_fmap, Hy, <- Hid.
    + by rewrite list_lookup_fmap, He, <- Hide.
  - apply first_index_Some in Hj as (e & He & Hte%has_timestamp_true & _).
    by eapply key_unique_insert_same.
  - apply key_unique_novel; [done|]. by apply first_index_None_timestamp.
Qed.

(** The side condition is needed: on a buffer with unique keys, a clashing
    upsert always leaves two entries with one timestamp. *)
Lemma timestamp_clash_breaks_uniqueness
    (cap : Z) (x : MotorReading) (r : list MotorReading) :
  timestamp_clash x r = true →
  ¬ NoDup (timestamp <$> onNewReading cap x r).
Proof.
  unfold timestamp_clash.
  intros [Hid Hts]%andb_true_iff Hnodup.
  apply existsb_exists in Hid as (e & He%list_elem_of_In & Hide).
  apply existsb_exists in Hts as (y & Hy%list_elem_of_In & Hy').
  apply andb_true_iff in Hy' as [Hyid%negb_true_iff%has_id_false Hyts%has_timestamp_true].
  destruct (first_index (has_id x) r) as [i|] eqn:Hi.
  2: { rewrite (proj1 (first_index_None _ _) Hi e He) in Hide. discriminate. }
  rewrite (onNewReading_id_hit cap x r i Hi) in Hnodup.
  apply first_index_Some in Hi as (e' & Hi & Hide'%has_id_true & _).
  apply list_elem_of_lookup_1 in Hy as [k Hk].
  assert (k ≠ i) as Hki by (intros ->; congruence).
  assert (i = k); [|congruence].
  eapply (NoDup_lookup _ i k (timestamp x) Hnodup).
  - rewrite list_lookup_fmap, list_lookup_insert_eq; [done|].
    by eapply lookup_lt_Some.
  - rewrite list_lookup_fmap, list_lookup_insert_ne by done.
    by rewrite Hk, <- Hyts.
Qed.

Lemma upserts_ids_unique (cap : Z) (xs r : list MotorReading) :
  NoDup (id <$> r) → NoDup (id <$> upserts cap xs r).
Proof.
  revert r. induction xs as [|x xs IH]; intros r Hids; simpl; [done|].
  apply IH. by apply onNewReading_ids_unique.
Qed.

Lemma upserts_keys_unique (cap : Z) (xs r : list MotorReading) :
  keys_unique r → clash_free cap xs r = true → keys_unique (upserts cap xs r).
Proof.
  revert r. induction xs as [|x xs IH]; intros r [Hids Hts] Hfree; simpl; [done|].
  simpl in Hfree. apply andb_true_iff in Hfree as [Hx%negb_true_iff Hrest].
  apply IH; [|done]. split.
  - by apply onNewReading_ids_unique.
  - by apply onNewReading_timestamps_unique.
Qed.

(** C1, as stated, fails.  With [A] (id 1, time 10) and [B] (id 2, time 20)
    in the buffer, the reading [X] (id 1, time 20) takes the id branch and
    overwrites [A] without looking at timestamps: two entries then share
    time 20. *)
Lemma upserts_keys_unique_counterexample :
  upserts 100 [Samples.A; Samples.B; Samples.X] [] = [Samples.B; Samples.X] ∧
  ¬ keys_unique (upserts 100 [Samples.A; Samples.B; Samples.X] []).
Proof.
  split; [reflexivity|].
  intros [_ Hts]. revert Hts. by_compute.
Qed.

(** C1, amended.  Every sequence of upserts applied to the empty buffer
    leaves at most one reading per id; it leaves at most one reading per
    timestamp as long as no upsert whose id is already in the buffer carries
    a timestamp held by an entry with another id. *)
Theorem upserts_from_empty_keys (cap : Z) (xs : list MotorReading) :
  NoDup (id <$> upserts cap xs []) ∧
  (clash_free cap xs [] = true → NoDup (timestamp <$> upserts cap xs [])).
Proof.
  split.
  - apply upserts_ids_unique. constructor.
  - intros Hfree. apply (upserts_keys_unique cap xs []); [|done].
    split; constructor.
Qed.

Lemma upserts_from_empty_keys_witness :
  clash_free 2 [Samples.A; Samples.B; Samples.A'; Samples.C] [] = true ∧
  NoDup (timestamp <$> upserts 2 [Samples.A; Samples.B; Samples.A'; Samples.C] []).
Proof.
  split; [reflexivity|].
  apply (proj2 (upserts_from_empty_keys 2 [Samples.A; Samples.B; Samples.A'; Samples.C])).
  reflexivity.
Defined.

(** ** The snapshot handler *)

(** C2, as stated, fails.  [A] has been pushed into the buffer; a snapshot
    that does not list it then arrives and the buffer becomes the snapshot:
    [A] is gone. *)
Lemma snapshot_merge_counterexample :
  let s := step 100 initialState (NewReading Samples.A) in
  let s' := step 100 s (SnapshotLoaded [Samples.B]) in
  readings s = [Samples.A] ∧ readings s' = [Samples.B] ∧
  ¬ streamed_readings_kept (readings s) (readings s').
Proof.
  split_and!; [reflexivity..|].
  intros Hkept. destruct (Hkept Samples.A) as (e' & He' & Hid).
  - left.
  - simpl in He'. apply list_elem_of_singleton in He' as ->. discriminate.
Qed.

(** C2, amended.  When the snapshot arrives, the buffer becomes the fetched
    list as it is, whatever the buffer held before; the rest of the state is
    kept, except that the loading flag is cleared. *)
Theorem snapshot_replaces_buffer (cap : Z) (s : AppState) (data : list MotorReading) :
  readings (step cap s (SnapshotLoaded data)) = data ∧
  alerts (step cap s (SnapshotLoaded data)) = alerts s ∧
  loading (step cap s (SnapshotLoaded data)) = false.
Proof. done. Qed.

(** C4: the snapshot handler stores the fetched list uncut.  With
    [maxReadings = 2] and three fetched readings, a buffer within capacity
    is replaced by one of length 3. *)
Theorem snapshot_exceeds_maxReadings :
  let s := step 2 initialState (SnapshotLoaded [Samples.A; Samples.B; Samples.C]) in
  within_capacity 2 initialState ∧
  length (readings s) = 3%nat ∧
  ¬ within_capacity 2 s.
Proof.
  unfold within_capacity. simpl. lia.
Qed.

(** ** Reconnect policy *)

Lemma retry_delay_capped (n : N) :
  (5 ≤ n)%N → N.min (1000 * 2 ^ n) 30000 = 30000%N.
Proof.
  intros Hn. apply N.min_r.
  assert (2 ^ 5 ≤ 2 ^ n)%N as Hpow by (apply N.pow_le_mono_r; [done | lia]).
  change (2 ^ 5)%N with 32%N in Hpow. lia.
Qed.

(** C8.  The delay depends on the attempt count alone: 0 ms at attempt 0,
    [min (1000 * 2^n) 30000] ms at every attempt [n ≥ 1]; attempts 0 to 3
    wait 0, 2000, 4000 and 8000 ms, and from attempt 5 on the delay is
    30000 ms. *)
Theorem reconnect_delay_policy :
  nextRetryDelayInMilliseconds 0 = 0%N ∧
  (∀ n, (1 ≤ n)%N → nextRetryDelayInMilliseconds n = N.min (1000 * 2 ^ n) 30000) ∧
  nextRetryDelayInMilliseconds <$> [0; 1; 2; 3]%N = [0; 2000; 4000; 8000]%N ∧
  (∀ n, (5 ≤ n)%N → nextRetryDelayInMilliseconds n = 30000%N).
Proof.
  split_and!.
  - reflexivity.
  - intros n Hn. unfold nextRetryDelayInMilliseconds.
    destruct (N.eqb_spec n 0) as [->|_]; [lia | done].
  - reflexivity.
  - intros n Hn. unfold nextRetryDelayInMilliseconds.
    destruct (N.eqb_spec n 0) as [->|_]; [lia|].
    by apply retry_delay_capped.
Qed.

Lemma reconnect_delay_policy_witness :
  nextRetryDelayInMilliseconds 4 = 16000%N ∧
  nextRetryDelayInMilliseconds 1024 = 30000%N.
Proof.
  destruct reconnect_delay_policy as (_ & Hexp & _ & Hcap). split.
  - rewrite (Hexp 4%N) by lia. reflexivity.
  - apply (Hcap 1024%N). lia.
Defined.

(** ** Alert registry *)

Lemma find_hit {A} (p : A → bool) (l : list A) (a : A) :
  a ∈ l → p a = true → ∃ b, find p l = Some b.
Proof.
  intros Ha Hpa. destruct (find p l) as [b|] eqn:Hfind; [by exists b|].
  apply find_None_first_index in Hfind.
  rewrite (proj1 (first_index_None p l) Hfind a Ha) in Hpa. discriminate.
Qed.

(** C9.  Adding an alert whose id is already in the registry returns the
    registry as it is; in particular every entry that was acknowledged is
    still there, acknowledged, at its index. *)
Theorem add_known_alert_is_noop (alert : Alert.t) (prev : list Alert.t) :
  (∃ a, a ∈ prev ∧ Alert.id a = Alert.id alert) →
  onNewAlert alert prev = prev ∧
  ∀ i a, prev !! i = Some a → Alert.acknowledged a = true →
         ∃ a', onNewAlert alert prev !! i = Some a' ∧ Alert.acknowledged a' = true.
Proof.
  intros (a & Ha & Hid).
  assert (onNewAlert alert prev = prev) as ->.
  { unfold onNewAlert.
    destruct (find_hit (λ a, String.eqb (Alert.id a) (Alert.id alert)) prev a)
      as [b ->]; [done | by apply String.eqb_eq | done]. }
  split; [done|]. intros i a0 Hi Hack. by exists a0.
Qed.

Lemma add_known_alert_is_noop_witness :
  onNewAlert (Samples.alert "a1" false)
             [Samples.alert "a2" false; Samples.alert "a1" true]
  = [Samples.alert "a2" false; Samples.alert "a1" true].
Proof.
  apply (add_known_alert_is_noop (Samples.alert "a1" false)
           [Samples.alert "a2" false; Samples.alert "a1" true]).
  exists (Samples.alert "a1" true). split; [|reflexivity].
  right. left.
Defined.

Lemma acknowledgeAlert_lookup (alertId : string) (prev : list Alert.t) (i : nat) :
  acknowledgeAlert alertId prev !! i
  = (λ alert, if String.eqb (Alert.id alert) alertId
              then Alert.mk (Alert.id alert) (Alert.message alert) true
                            (Alert.createdAt alert)
              else alert) <$> prev !! i.
Proof. unfold acknowledgeAlert. apply list_lookup_fmap. Qed.

(** C10.  Acknowledging an id that no entry carries returns the registry
    unchanged.  In general the registry keeps its length and order: the
    entry at each index keeps its id, message and creation time; it is
    acknowledged if it carries the id, and is untouched otherwise. *)
Theorem acknowledge_frame (alertId : string) (prev : list Alert.t) :
  ((∀ a, a ∈ prev → Alert.id a ≠ alertId) → acknowledgeAlert alertId prev = prev) ∧
  length (acknowledgeAlert alertId prev) = length prev ∧
  ∀ i a, prev !! i = Some a →
    ∃ a', acknowledgeAlert alertId prev !! i = Some a' ∧
          Alert.id a' = Alert.id a ∧
          Alert.message a' = Alert.message a ∧
          Alert.createdAt a' = Alert.createdAt a ∧
          (Alert.id a = alertId → Alert.acknowledged a' = true) ∧
          (Alert.id a ≠ alertId → a' = a).
Proof.
  split_and!.
  - intros Habsent. apply list_eq. intros i. rewrite acknowledgeAlert_lookup.
    destruct (prev !! i) as [a|] eqn:Hi; [|done]. simpl. f_equal.
    destruct (String.eqb_spec (Alert.id a) alertId) as [Heq|_]; [|done].
    destruct (Habsent a); [by eapply list_elem_of_lookup_2 | done].
  - unfold acknowledgeAlert. apply length_map.
  - intros i a Hi. rewrite acknowledgeAlert_lookup, Hi. simpl.
    destruct (String.eqb_spec (Alert.id a) alertId) as [Heq|Hne].
    + eexists. split_and!; done.
    + exists a. split_and!; done.
Qed.

Lemma acknowledge_frame_witness :
  acknowledgeAlert "zz" [Samples.alert "a2" false; Samples.alert "a1" true]
  = [Samples.alert "a2" false; Samples.alert "a1" true] ∧
  acknowledgeAlert "a2" [Samples.alert "a2" false; Samples.alert "a1" false]
  = [Samples.alert "a2" true; Samples.alert "a1" false].
Proof.
  split.
  - apply (proj1 (acknowledge_frame "zz"
                    [Samples.alert "a2" false; Samples.alert "a1" true])).
    intros a Ha. repeat (apply elem_of_cons in Ha as [-> | Ha]);
      [discriminate.. | by apply elem_of_nil in Ha].
  - reflexivity.
Defined.

(** ** Derived extrema *)

Lemma num_lt_true (a b : Q) : num_lt a b = true ↔ (a < b)%Q.
Proof.
  unfold num_lt. rewrite negb_true_iff, <- not_true_iff_false, Qle_bool_iff.
  split; [apply Qnot_le_lt | apply Qlt_not_le].
Qed.

Lemma num_lt_false (a b : Q) : num_lt a b = false ↔ (b <= a)%Q.
Proof. unfold num_lt. by rewrite negb_false_iff, Qle_bool_iff. Qed.

Section Reduce.
Context {A : Type}.

Lemma reduce_snoc (f : A → A → A) (l : list A) (b : A) :
  l ≠ [] → reduce f (l ++ [b]) = (λ a, f a b) <$> reduce f l.
Proof.
  destruct l as [|x l]; [done|]. intros _. simpl.
  by rewrite fold_left_app.
Qed.

Lemma reduce_ext (f g : A → A → A) (l : list A) :
  (∀ a b, f a b = g a b) → reduce f l = reduce g l.
Proof.
  intros Hfg. destruct l as [|x l]; [done|]. simpl. f_equal.
  revert x. induction l as [|y l IH]; intros x; simpl; [done|].
  by rewrite Hfg, IH.
Qed.

Context (key : A → Q).

(** The reducer of [highestTemp] and [highestRpm] hands over to the next
    element unless the accumulator is strictly greater, so among equal
    maxima the last one survives. *)
Lemma reduce_max_is_last (l : list A) :
  l ≠ [] →
  ∃ m, reduce (λ a b, if num_gt (key a) (key b) then a else b) l = Some m ∧
       is_last_max key l m.
Proof.
  induction l as [|b l IH] using rev_ind; [done|]. intros _.
  destruct (decide (l = [])) as [->|Hne].
  { exists b. split; [done|]. exists O. split_and!; [done | |].
    - intros e ->%list_elem_of_singleton. apply Qle_refl.
    - intros [|j] e He Hj; [lia | done]. }
  destruct (IH Hne) as (m & Hm & i & Hi & Hmax & Hlast).
  rewrite reduce_snoc, Hm by done. simpl.
  destruct (num_gt (key m) (key b)) eqn:Hcmp.
  - apply num_lt_true in Hcmp.
    exists m. split; [done|]. exists i. split_and!.
    + by apply lookup_app_l_Some.
    + intros e [He | ->%list_elem_of_singleton]%elem_of_app; [by apply Hmax|].
      by apply Qlt_le_weak.
    + intros j e He Hj. apply lookup_app_Some in He as [He | [_ He]].
      * by apply (Hlast j).
      * apply list_lookup_singleton_Some in He as [_ <-]. done.
  - apply num_lt_false in Hcmp.
    exists b. split; [done|]. exists (length l). split_and!.
    + by apply list_lookup_middle.
    + intros e [He | ->%list_elem_of_singleton]%elem_of_app; [|apply Qle_refl].
      eapply Qle_trans; [by apply Hmax | done].
    + intros j e He Hj. apply lookup_lt_Some in He.
      rewrite length_app in He. simpl in He. lia.
Qed.
End Reduce.

Section ReduceMin.
Context {A : Type} (key : A → Q).

(** The reducer of [lowestTemp] and [lowestRpm], read on the negated key,
    is the reducer of the maxima. *)
Lemma reduce_min_is_last (l : list A) :
  l ≠ [] →
  ∃ m, reduce (λ a b, if num_lt (key a) (key b) then a else b) l = Some m ∧
       is_last_min key l m.
Proof.
  intros Hne.
  destruct (reduce_max_is_last (λ e, - key e)%Q l Hne)
    as (m & Hm & i & Hi & Hmax & Hlast).
  exists m. split.
  - rewrite <- Hm. apply reduce_ext. intros a b. unfold num_gt.
    destruct (num_lt (key a) (key b)) eqn:Hab.
    + apply num_lt_true in Hab.
      assert (num_lt (- key b) (- key a) = true) as ->; [|done].
      apply num_lt_true. by apply Qopp_lt_compat.
    + apply num_lt_false in Hab.
      assert (num_lt (- key b) (- key a) = false) as ->; [|done].
      apply num_lt_false. by apply Qopp_le_compat.
  - exists i. split_and!; [done | |].
    + intros e He. specialize (Hmax e He). simpl in Hmax. lra.
    + intros j e He Hj. specialize (Hlast j e He Hj). simpl in Hlast. lra.
Qed.
End ReduceMin.

Lemma nonempty_length (readings : list MotorReading) :
  readings ≠ [] → (length readings =? 0)%nat = false.
Proof. destruct readings; [done | by intros _]. Qed.

(** C3, as stated, fails.  In the spec's buffer the two hottest readings tie
    at 90; the reducer hands over on a tie, so [highestTemp] is the second
    of them, which is not the first entry with the largest temperature. *)
Lemma highestTemp_first_tie_counterexample :
  highestTemp [Samples.hot1; Samples.cold; Samples.hot2] = Some Samples.hot2 ∧
  highestTemp [Samples.hot1; Samples.cold; Samples.hot2] ≠ Some Samples.hot1 ∧
  ¬ is_first_max temperature [Samples.hot1; Samples.cold; Samples.hot2] Samples.hot2.
Proof.
  split_and!; [reflexivity | discriminate |].
  intros (i & Hi & _ & Hfirst).
  destruct i as [|[|[|i]]]; try discriminate.
  specialize (Hfirst O Samples.hot1 eq_refl). 
  apply (Qlt_irrefl (temperature Samples.hot2)). apply Hfirst. lia.
Qed.

(** C3, amended.  For every non-empty buffer each derived extremum is a
    reading of the buffer attaining the extremal value, and among readings
    that tie on that value it is the one last in buffer order. *)
Theorem extrema_attained_last_tie (readings : list MotorReading) :
  readings ≠ [] →
  (∃ m, highestTemp readings = Some m ∧ is_last_max temperature readings m) ∧
  (∃ m, lowestTemp readings = Some m ∧ is_last_min temperature readings m) ∧
  (∃ m, highestRpm readings = Some m ∧ is_last_max speed readings m) ∧
  (∃ m, lowestRpm readings = Some m ∧ is_last_min speed readings m).
Proof.
  intros Hne. unfold highestTemp, lowestTemp, highestRpm, lowestRpm.
  rewrite (nonempty_length readings Hne).
  split_and!.
  - by apply (reduce_max_is_last temperature).
  - by apply (reduce_min_is_last temperature).
  - by apply (reduce_max_is_last speed).
  - by apply (reduce_min_is_last speed).
Qed.

Lemma extrema_attained_last_tie_witness :
  ∃ m, highestTemp [Samples.hot1; Samples.cold; Samples.hot2] = Some m ∧
       is_last_max temperature [Samples.hot1; Samples.cold; Samples.hot2] m.
Proof.
  apply (extrema_attained_last_tie [Samples.hot1; Samples.cold; Samples.hot2]).
  discriminate.
Defined.

(** ** Remarks on inputs outside the data model *)

(** A negative [maxReadings] makes [slice] count from the end: the cut
    then drops that many of the oldest entries instead of keeping a fixed
    number. *)
Example upsert_negative_capacity :
  onNewReading (-1) Samples.C [Samples.B; Samples.A] = [Samples.C; Samples.B].
Proof. reflexivity. Qed.


(** A snapshot may in principle list an id twice; [findIndex] then selects
    the first carrier, and a later carrier is never the one replaced. *)
Example upsert_duplicate_ids_first_wins :
  onNewReading 100 Samples.X [Samples.A; Samples.A'] = [Samples.X; Samples.A'].
Proof. reflexivity. Qed.


(** * Further properties of the code *)

(** ** The reconciler beyond the three branches *)

Section FirstIndexFacts.
Context {A : Type}.
Implicit Types (p : A → bool) (l : list A).

Lemma first_index_insert_hit p l i x :
  first_index p l = Some i → p x = true → first_index p (<[i:=x]> l) = Some i.
Proof.
  intros (e & He & _ & Hfirst)%first_index_Some Hpx.
  apply first_index_Some. exists x. split_and!; [|done|].
  - apply list_lookup_insert_eq. by eapply lookup_lt_Some.
  - intros j y Hj Hy. rewrite list_lookup_insert_ne in Hy by lia.
    by apply (Hfirst j).
Qed.

Lemma first_index_insert_new p l i x :
  first_index p l = None → (i < length l)%nat → p x = true →
  first_index p (<[i:=x]> l) = Some i.
Proof.
  intros Hnone Hi Hpx. apply first_index_Some. exists x. split_and!; [|done|].
  - by apply list_lookup_insert_eq.
  - intros j y Hj Hy. rewrite list_lookup_insert_ne in Hy by lia.
    eapply first_index_None; [done|]. by eapply list_elem_of_lookup_2.
Qed.

(** A front segment of [x :: l] is empty or starts with [x]. *)
Lemma slice_cons_front (n : Z) (x : A) l :
  slice 0 n (x :: l) = [] ∨ ∃ t, slice 0 n (x :: l) = x :: t.
Proof.
  destruct (slice_is_take n (x :: l)) as [[|k] ->]; [by left|].
  right. by eexists.
Qed.

Lemma slice_cons_empty (n : Z) (x : A) l :
  slice 0 n (x :: l) = [] → slice 0 n [x] = [].
Proof.
  destruct (Z.lt_ge_cases n 0) as [Hn|Hn].
  - rewrite !slice_prefix_neg by done. simpl length.
    intros [Hk|Hnil]%take_nil_inv; [|done].
    replace (1 - Z.to_nat (- n))%nat with O by lia. done.
  - rewrite !slice_prefix_nonneg by done.
    intros [Hk|Hnil]%take_nil_inv; [|done]. by rewrite Hk.
Qed.

(** With pairwise distinct keys, an entry is the first with its key. *)
Lemma unique_key_is_first {K} (key : A → K) p l (i : nat) (e : A) (k : K) :
  (∀ y, p y = true ↔ key y = k) →
  NoDup (key <$> l) → l !! i = Some e → key e = k →
  first_index p l = Some i.
Proof.
  intros Hp Hnodup Hi Hk. apply first_index_Some. exists e.
  split_and!; [done | by apply Hp |].
  intros j y Hj Hy. destruct (p y) eqn:Hpy; [|done].
  apply Hp in Hpy. assert (j = i); [|lia].
  eapply (NoDup_lookup _ j i k Hnodup).
  - by rewrite list_lookup_fmap, Hy, <- Hpy.
  - by rewrite list_lookup_fmap, Hi, <- Hk.
Qed.
End FirstIndexFacts.

Lemma has_id_refl (x : MotorReading) : has_id x x = true.
Proof. by apply has_id_true. Qed.

(** X1.  When no entry carries the incoming id, the buffer's timestamps are
    pairwise distinct and the entry at index [j] has the incoming timestamp,
    that entry is overwritten in place: same length, the incoming reading at
    [j], every other index untouched. *)
Theorem upsert_timestamp_match_replaces_in_place
    (cap : Z) (x e : MotorReading) (r : list MotorReading) (j : nat) :
  (∀ y, y ∈ r → id y ≠ id x) →
  NoDup (timestamp <$> r) → r !! j = Some e → timestamp e = timestamp x →
  onNewReading cap x r = <[j:=x]> r ∧
  length (onNewReading cap x r) = length r ∧
  onNewReading cap x r !! j = Some x ∧
  ∀ k, k ≠ j → onNewReading cap x r !! k = r !! k.
Proof.
  intros Hid Hnodup Hj Hts.
  rewrite (onNewReading_timestamp_hit cap x r j).
  - split_and!.
    + done.
    + apply length_insert.
    + apply list_lookup_insert_eq. by eapply lookup_lt_Some.
    + intros k Hk. by apply list_lookup_insert_ne.
  - apply no_match_first_index. intros y Hy. apply has_id_false. auto.
  - eapply (unique_key_is_first timestamp); [|done..].
    intros y. apply has_timestamp_true.
Qed.

Lemma upsert_timestamp_match_replaces_in_place_witness :
  onNewReading 100 (Samples.reading "9" "20" 0 0) [Samples.A; Samples.B]
  = [Samples.A; Samples.reading "9" "20" 0 0].
Proof.
  refine (proj1 (upsert_timestamp_match_replaces_in_place 100
                   (Samples.reading "9" "20" 0 0) Samples.B
                   [Samples.A; Samples.B] 1 _ _ _ _)).
  - intros y Hy. repeat (apply elem_of_cons in Hy as [-> | Hy]);
      [discriminate.. | by apply elem_of_nil in Hy].
  - by_compute.
  - reflexivity.
  - reflexivity.
Defined.

(** X2.  Handling the same pushed reading twice gives the buffer that
    handling it once gives, whatever the buffer and the capacity. *)
Theorem upsert_idempotent (cap : Z) (x : MotorReading) (r : list MotorReading) :
  onNewReading cap x (onNewReading cap x r) = onNewReading cap x r.
Proof.
  destruct (onNewReading_cases cap x r)
    as [(i & Hi & ->) | [(j & Hi & Hj & ->) | (Hi & Hj & ->)]].
  - rewrite (onNewReading_id_hit cap x _ i).
    + apply list_insert_insert_eq.
    + apply first_index_insert_hit; [done | apply has_id_refl].
  - rewrite (onNewReading_id_hit cap x _ j).
    + apply list_insert_insert_eq.
    + apply first_index_insert_new; [done | | apply has_id_refl].
      by eapply first_index_lt.
  - destruct (slice_cons_front cap x r) as [Hnil | [t Ht]].
    + rewrite Hnil. rewrite onNewReading_novel by done.
      by eapply slice_cons_empty.
    + rewrite Ht. apply (onNewReading_id_hit cap x (x :: t) 0).
      simpl. by rewrite has_id_refl.
Qed.

(** X3.  With room for at least one reading, the pushed reading is in the
    buffer afterwards; when neither its id nor its timestamp was known it is
    the head of the buffer. *)
Theorem upsert_contains_incoming (cap : Z) (x : MotorReading) (r : list MotorReading) :
  1 ≤ cap →
  x ∈ onNewReading cap x r ∧
  ((∀ e, e ∈ r → id e ≠ id x) → (∀ e, e ∈ r → timestamp e ≠ timestamp x) →
   onNewReading cap x r !! 0%nat = Some x).
Proof.
  intros Hcap. split.
  - destruct (onNewReading_cases cap x r)
      as [(i & Hi & ->) | [(j & _ & Hj & ->) | (_ & _ & ->)]].
    + apply list_elem_of_insert. by eapply first_index_lt.
    + apply list_elem_of_insert. by eapply first_index_lt.
    + rewrite slice_prefix_nonneg by lia.
      destruct (Z.to_nat cap) as [|k] eqn:Hk; [lia|]. simpl. left.
  - intros Hid Hts. rewrite onNewReading_novel.
    + rewrite slice_prefix_nonneg by lia.
      destruct (Z.to_nat cap) as [|k] eqn:Hk; [lia | done].
    + apply no_match_first_index. intros e He. apply has_id_false. auto.
    + apply no_match_first_index. intros e He. apply has_timestamp_false. auto.
Qed.

Lemma upsert_contains_incoming_witness :
  Samples.C ∈ onNewReading 1 Samples.C [Samples.B; Samples.A].
Proof.
  apply (upsert_contains_incoming 1 Samples.C [Samples.B; Samples.A]). lia.
Defined.

(** X4.  An update that lands behind the head leaves the head alone: when
    the head has neither the incoming id nor the incoming timestamp but some
    entry has one of them, the head of the buffer is the same reading before
    and after. *)
Theorem upsert_behind_head_keeps_head
    (cap : Z) (x h : MotorReading) (r : list MotorReading) :
  r !! 0%nat = Some h → id h ≠ id x → timestamp h ≠ timestamp x →
  (∃ e, e ∈ r ∧ (id e = id x ∨ timestamp e = timestamp x)) →
  onNewReading cap x r !! 0%nat = Some h.
Proof.
  intros Hh Hid Hts (e & He & Hmatch).
  destruct (onNewReading_cases cap x r)
    as [(i & Hi & ->) | [(j & _ & Hj & ->) | (Hi & Hj & _)]].
  - apply first_index_Some in Hi as (y & Hy & Hy'%has_id_true & _).
    rewrite list_lookup_insert_ne; [done|]. intros ->. congruence.
  - apply first_index_Some in Hj as (y & Hy & Hy'%has_timestamp_true & _).
    rewrite list_lookup_insert_ne; [done|]. intros ->. congruence.
  - destruct Hmatch as [Hm | Hm].
    + by destruct (first_index_None_id x r Hi e He).
    + by destruct (first_index_None_timestamp x r Hj e He).
Qed.

Lemma upsert_behind_head_keeps_head_witness :
  onNewReading 100 Samples.A' [Samples.B; Samples.A] !! 0%nat = Some Samples.B.
Proof.
  apply (upsert_behind_head_keeps_head 100 Samples.A' Samples.B
           [Samples.B; Samples.A]).
  - reflexivity.
  - discriminate.
  - discriminate.
  - exists Samples.A. split; [right; left | left; reflexivity].
Defined.

(** X5.  In a buffer with pairwise distinct ids, pushing a reading that is
    already in the buffer leaves the buffer as it is. *)
Theorem upsert_resend_is_noop (cap : Z) (x : MotorReading) (r : list MotorReading) :
  NoDup (id <$> r) → x ∈ r → onNewReading cap x r = r.
Proof.
  intros Hnodup [i Hi]%list_elem_of_lookup_1.
  rewrite (onNewReading_id_hit cap x r i).
  - by apply list_insert_id.
  - by eapply unique_id_is_first.
Qed.

Lemma upsert_resend_is_noop_witness :
  onNewReading 1 Samples.A [Samples.B; Samples.A] = [Samples.B; Samples.A].
Proof.
  apply (upsert_resend_is_noop 1 Samples.A [Samples.B; Samples.A]).
  - by_compute.
  - right. left.
Defined.

(** X6.  Only a novel reading changes the length.  A reading whose id or
    timestamp is in the buffer keeps the length, also of a buffer longer
    than the capacity; a novel reading under a capacity [cap ≥ 0] leaves
    [min cap (length + 1)] entries, which brings a buffer that was too long
    back under the capacity. *)
Theorem upsert_length (cap : Z) (x : MotorReading) (r : list MotorReading) :
  ((∃ e, e ∈ r ∧ (id e = id x ∨ timestamp e = timestamp x)) →
   length (onNewReading cap x r) = length r) ∧
  ((∀ e, e ∈ r → id e ≠ id x) → (∀ e, e ∈ r → timestamp e ≠ timestamp x) →
   0 ≤ cap →
   Z.of_nat (length (onNewReading cap x r)) = Z.min cap (Z.of_nat (length r) + 1)).
Proof.
  split.
  - intros (e & He & Hmatch).
    destruct (onNewReading_cases cap x r)
      as [(i & Hi & ->) | [(j & _ & Hj & ->) | (Hi & Hj & _)]].
    + apply length_insert.
    + apply length_insert.
    + destruct Hmatch as [Hm | Hm].
      * by destruct (first_index_None_id x r Hi e He).
      * by destruct (first_index_None_timestamp x r Hj e He).
  - intros Hid Hts Hcap. rewrite onNewReading_novel.
    + rewrite slice_prefix_nonneg by done. rewrite length_take. simpl. lia.
    + apply no_match_first_index. intros e He. apply has_id_false. auto.
    + apply no_match_first_index. intros e He. apply has_timestamp_false. auto.
Qed.

Lemma upsert_length_witness :
  length (onNewReading 1 Samples.A' [Samples.B; Samples.A]) = 2%nat ∧
  Z.of_nat (length (onNewReading 1 Samples.C [Samples.B; Samples.A])) = 1.
Proof.
  split.
  - apply (proj1 (upsert_length 1 Samples.A' [Samples.B; Samples.A])).
    exists Samples.A. split; [right; left | left; reflexivity].
  - apply (proj2 (upsert_length 1 Samples.C [Samples.B; Samples.A])).
    + intros e He. repeat (apply elem_of_cons in He as [-> | He]);
        [discriminate.. | by apply elem_of_nil in He].
    + intros e He. repeat (apply elem_of_cons in He as [-> | He]);
        [discriminate.. | by apply elem_of_nil in He].
    + lia.
Defined.

(** X7.  A pushed reading changes the buffer in one of two ways only: it
    overwrites one entry, which has its id or its timestamp, or it is put in
    front of the buffer, of which a front segment is kept.  Entries are
    never reordered and no unrelated entry is overwritten. *)
Theorem upsert_shape (cap : Z) (x : MotorReading) (r : list MotorReading) :
  (∃ i e, r !! i = Some e ∧ (id e = id x ∨ timestamp e = timestamp x) ∧
          onNewReading cap x r = <[i:=x]> r) ∨
  (∃ k, onNewReading cap x r = take k (x :: r)).
Proof.
  destruct (onNewReading_cases cap x r)
    as [(i & Hi & ->) | [(j & _ & Hj & ->) | (_ & _ & ->)]].
  - left. apply first_index_Some in Hi as (e & He & Hid%has_id_true & _).
    exists i, e. auto.
  - left. apply first_index_Some in Hj as (e & He & Hts%has_timestamp_true & _).
    exists j, e. auto.
  - right. apply slice_is_take.
Qed.

(** ** Runs of events *)

Lemma run_cons (cap : Z) (e : Event) (es : list Event) (s : AppState) :
  run cap (e :: es) s = run cap es (step cap s e).
Proof. done. Qed.

Lemma run_app (cap : Z) (es1 es2 : list Event) (s : AppState) :
  run cap (es1 ++ es2) s = run cap es2 (run cap es1 s).
Proof. unfold run. apply fold_left_app. Qed.

(** The buffer after a run is a function of the buffer before it, and the
    registry of the registry. *)
Lemma run_readings_ext (cap : Z) (es : list Event) (s s' : AppState) :
  readings s = readings s' → readings (run cap es s) = readings (run cap es s').
Proof.
  revert s s'. induction es as [|e es IH]; intros s s' Heq; [done|].
  rewrite !run_cons. apply IH. destruct e; simpl; congruence.
Qed.

Lemma run_alerts_ext (cap : Z) (es : list Event) (s s' : AppState) :
  alerts s = alerts s' → alerts (run cap es s) = alerts (run cap es s').
Proof.
  revert s s'. induction es as [|e es IH]; intros s s' Heq; [done|].
  rewrite !run_cons. apply IH. destruct e; simpl; congruence.
Qed.

(** X8.  The buffer after a run is decided by the snapshot and reading
    events of the run alone, and the alert registry by its alert events
    alone: alert, acknowledgement and connection events never touch the
    buffer, and reading and connection events never touch the registry. *)
Theorem run_state_separation (cap : Z) (es : list Event) (s : AppState) :
  readings (run cap es s) = readings (run cap (List.filter touches_readings es) s) ∧
  alerts (run cap es s) = alerts (run cap (List.filter touches_alerts es) s).
Proof.
  split; revert s; induction es as [|e es IH]; intros s; try done.
  - simpl List.filter. destruct (touches_readings e) eqn:He.
    + rewrite !run_cons. apply IH.
    + rewrite run_cons, <- IH. apply run_readings_ext.
      by destruct e.
  - simpl List.filter. destruct (touches_alerts e) eqn:He.
    + rewrite !run_cons. apply IH.
    + rewrite run_cons, <- IH. apply run_alerts_ext.
      by destruct e.
Qed.

(** X9.  Whatever happened before a snapshot arrives has no influence on
    the buffer from then on: two sessions that agree from a snapshot on end
    with the same buffer. *)
Theorem snapshot_erases_history
    (cap : Z) (before before' after : list Event) (data : list MotorReading)
    (s s' : AppState) :
  readings (run cap (before ++ SnapshotLoaded data :: after) s)
  = readings (run cap (before' ++ SnapshotLoaded data :: after) s').
Proof.
  rewrite !run_app, !run_cons. by apply run_readings_ext.
Qed.

(** X10.  The loading flag is cleared by the first snapshot outcome, be it
    success or failure, and nothing sets it again: after a run it is set
    exactly when it was set before and the run holds no snapshot outcome. *)
Theorem run_loading (cap : Z) (es : list Event) (s : AppState) :
  loading (run cap es s)
  = loading s && forallb (λ e, negb (snapshot_outcome e)) es.
Proof.
  revert s. induction es as [|e es IH]; intros s.
  - simpl. by rewrite andb_true_r.
  - rewrite run_cons, IH. destruct e; simpl; try done.
    all: by rewrite andb_false_r.
Qed.

(** X11.  The connection indicator shows what the latest connection
    callback reported (started and reconnected count as connected; start
    failure, close and reconnecting as not connected); without such a
    callback in the run it keeps its value. *)
Theorem run_connection_indicator (cap : Z) (es : list Event) (s : AppState) :
  signalRConnected (run cap es s)
  = default (signalRConnected s) (last (omap connection_signal es)).
Proof.
  revert s. induction es as [|e es IH]; intros s; [done|].
  rewrite run_cons, IH.
  change (omap connection_signal (e :: es))
    with (match connection_signal e with
          | Some b => b :: omap connection_signal es
          | None => omap connection_signal es
          end).
  destruct (connection_signal e) as [b|] eqn:He.
  - rewrite last_cons.
    assert (signalRConnected (step cap s e) = b) as ->.
    { destruct e; simpl in *; congruence. }
    by destruct (last (omap connection_signal es)).
  - assert (signalRConnected (step cap s e) = signalRConnected s) as ->; [|done].
    by destruct e.
Qed.

Lemma step_readings (cap : Z) (s : AppState) (e : Event) :
  readings (step cap s e)
  = match e with
    | SnapshotLoaded data => data
    | NewReading reading => onNewReading cap reading (readings s)
    | _ => readings s
    end.
Proof. by destruct e. Qed.

(** X12.  As long as every snapshot of a run is no longer than the
    capacity, a buffer within the capacity stays within it through the
    run. *)
Theorem run_within_capacity (cap : Z) (es : list Event) (s : AppState) :
  within_capacity cap s →
  (∀ data, SnapshotLoaded data ∈ es → Z.of_nat (length data) ≤ cap) →
  within_capacity cap (run cap es s).
Proof.
  revert s. induction es as [|e es IH]; intros s Hs Hsnap; [done|].
  rewrite run_cons. apply IH.
  - unfold within_capacity in *. rewrite step_readings.
    destruct e; try done.
    + apply Hsnap. left.
    + by apply onNewReading_length_le.
  - intros data Hdata. apply Hsnap. by right.
Qed.

Lemma run_within_capacity_witness :
  within_capacity 2
    (run 2 [NewReading Samples.A; SnapshotLoaded [Samples.B; Samples.A];
            NewReading Samples.C; HubClosed] initialState).
Proof.
  apply (run_within_capacity 2).
  - unfold within_capacity. simpl. lia.
  - intros data Hdata.
    repeat (apply elem_of_cons in Hdata as [Hdata | Hdata]); try discriminate.
    + injection Hdata as ->. simpl. lia.
    + by apply elem_of_nil in Hdata.
Defined.

(** X13.  As long as every snapshot of a run lists each id once, a buffer
    with pairwise distinct ids keeps them pairwise distinct through the
    run. *)
Theorem run_reading_ids_unique (cap : Z) (es : list Event) (s : AppState) :
  NoDup (id <$> readings s) →
  (∀ data, SnapshotLoaded data ∈ es → NoDup (id <$> data)) →
  NoDup (id <$> readings (run cap es s)).
Proof.
  revert s. induction es as [|e es IH]; intros s Hs Hsnap; [done|].
  rewrite run_cons. apply IH.
  - rewrite step_readings. destruct e; try done.
    + apply Hsnap. left.
    + by apply onNewReading_ids_unique.
  - intros data Hdata. apply Hsnap. by right.
Qed.

Lemma run_reading_ids_unique_witness :
  NoDup (id <$> readings
    (run 2 [NewReading Samples.A; SnapshotLoaded [Samples.B; Samples.A];
            NewReading Samples.X; NewReading Samples.C] initialState)).
Proof.
  apply (run_reading_ids_unique 2).
  - constructor.
  - intros data Hdata.
    repeat (apply elem_of_cons in Hdata as [Hdata | Hdata]); try discriminate.
    + injection Hdata as ->. by_compute.
    + by apply elem_of_nil in Hdata.
Defined.

(** ** The alert registry along a run *)

Lemma find_miss {A} (p : A → bool) (l : list A) :
  find p l = None ↔ ∀ a, a ∈ l → p a = false.
Proof. rewrite find_None_first_index. apply first_index_None. Qed.

Lemma onNewAlert_known (alert : Alert.t) (prev : list Alert.t) (a : Alert.t) :
  a ∈ prev → Alert.id a = Alert.id alert → onNewAlert alert prev = prev.
Proof.
  intros Ha Hid. unfold onNewAlert.
  destruct (find_hit (λ a, String.eqb (Alert.id a) (Alert.id alert)) prev a)
    as [b ->]; [done | by apply String.eqb_eq | done].
Qed.

Lemma onNewAlert_fresh (alert : Alert.t) (prev : list Alert.t) :
  (∀ a, a ∈ prev → Alert.id a ≠ Alert.id alert) →
  onNewAlert alert prev = alert :: prev.
Proof.
  intros Hfresh. unfold onNewAlert.
  assert (find (λ a, String.eqb (Alert.id a) (Alert.id alert)) prev = None) as ->;
    [|done].
  apply find_miss. intros a Ha. apply String.eqb_neq. auto.
Qed.

(** The handler either finds the id or finds it nowhere. *)
Lemma onNewAlert_cases (alert : Alert.t) (prev : list Alert.t) :
  (onNewAlert alert prev = prev ∧
   ∃ a, a ∈ prev ∧ Alert.id a = Alert.id alert) ∨
  (onNewAlert alert prev = alert :: prev ∧
   ∀ a, a ∈ prev → Alert.id a ≠ Alert.id alert).
Proof.
  unfold onNewAlert.
  destruct (find (λ a, String.eqb (Alert.id a) (Alert.id alert)) prev)
    as [b|] eqn:Hfind.
  - left. split; [done|]. apply find_some in Hfind as [Hb Hid].
    exists b. split; [by apply list_elem_of_In | by apply String.eqb_eq].
  - right. split; [done|]. intros a Ha. apply String.eqb_neq.
    by apply (proj1 (find_miss _ _) Hfind).
Qed.


Lemma acknowledgeAlert_ids (alertId : string) (prev : list Alert.t) :
  Alert.id <$> acknowledgeAlert alertId prev = Alert.id <$> prev.
Proof.
  apply list_eq. intros i.
  rewrite !list_lookup_fmap, acknowledgeAlert_lookup.
  destruct (prev !! i) as [a|]; [|done]. simpl.
  by destruct (String.eqb (Alert.id a) alertId).
Qed.

Lemma step_alerts (cap : Z) (s : AppState) (e : Event) :
  alerts (step cap s e)
  = match e with
    | NewAlert alert => onNewAlert alert (alerts s)
    | AcknowledgeAlert alertId => acknowledgeAlert alertId (alerts s)
    | _ => alerts s
    end.
Proof. by destruct e. Qed.

(** X14.  Through every run the registry holds each alert id at most once,
    provided it did at the start (the empty registry does). *)
Theorem run_alert_ids_unique (cap : Z) (es : list Event) (s : AppState) :
  NoDup (Alert.id <$> alerts s) →
  NoDup (Alert.id <$> alerts (run cap es s)).
Proof.
  revert s. induction es as [|e es IH]; intros s Hs; [done|].
  rewrite run_cons. apply IH. rewrite step_alerts. destruct e; try done.
  - destruct (onNewAlert_cases alert (alerts s)) as [[-> _] | [-> Hfresh]]; [done|].
    simpl. apply NoDup_cons. split; [|done].
    intros (a & Hid & Ha)%list_elem_of_fmap. by apply (Hfresh a).
  - by rewrite acknowledgeAlert_ids.
Qed.

Lemma run_alert_ids_unique_witness :
  NoDup (Alert.id <$> alerts
    (run 100 [NewAlert (Samples.alert "a1" false); AcknowledgeAlert "a1";
              NewAlert (Samples.alert "a1" false);
              NewAlert (Samples.alert "a2" false)] initialState)).
Proof.
  apply (run_alert_ids_unique 100). constructor.
Defined.

Lemma acknowledged_fixed (alertId : string) (a : Alert.t) :
  Alert.acknowledged a = true →
  (if String.eqb (Alert.id a) alertId
   then Alert.mk (Alert.id a) (Alert.message a) true (Alert.createdAt a)
   else a) = a.
Proof.
  intros Hack. destruct (String.eqb (Alert.id a) alertId); [|done].
  destruct a; simpl in *. by subst.
Qed.

(** X15.  An acknowledgement is never undone: an alert that is in the
    registry and acknowledged is still in the registry, acknowledged, after
    any run of events, resends of its id included. *)
Theorem run_acknowledged_stays
    (cap : Z) (es : list Event) (s : AppState) (a : Alert.t) :
  a ∈ alerts s → Alert.acknowledged a = true →
  a ∈ alerts (run cap es s).
Proof.
  revert s. induction es as [|e es IH]; intros s Ha Hack; [done|].
  rewrite run_cons. apply IH; [|done]. rewrite step_alerts.
  destruct e; try done.
  - destruct (onNewAlert_cases alert (alerts s)) as [[-> _] | [-> _]]; [done|].
    by right.
  - unfold acknowledgeAlert. apply list_elem_of_In, in_map_iff.
    exists a. split; [by apply acknowledged_fixed | by apply list_elem_of_In].
Qed.

Lemma run_acknowledged_stays_witness :
  Samples.alert "a1" true ∈ alerts
    (run 100 [NewAlert (Samples.alert "a1" false); AcknowledgeAlert "a2";
              HubClosed]
         (mkState [] [Samples.alert "a1" true] false true)).
Proof.
  apply (run_acknowledged_stays 100); [left | reflexivity].
Defined.


(** X17.  Acknowledging an alert twice is acknowledging it once, and two
    acknowledgements can be given in either order. *)
Theorem acknowledgeAlert_idempotent_commutes (a b : string) (prev : list Alert.t) :
  acknowledgeAlert a (acknowledgeAlert a prev) = acknowledgeAlert a prev ∧
  acknowledgeAlert a (acknowledgeAlert b prev)
  = acknowledgeAlert b (acknowledgeAlert a prev).
Proof.
  unfold acknowledgeAlert. rewrite !map_map. split.
  - apply map_ext. intros x. simpl.
    destruct (String.eqb (Alert.id x) a) eqn:Hx; simpl; by rewrite Hx.
  - apply map_ext. intros x. simpl.
    destruct (String.eqb (Alert.id x) a) eqn:Ha, (String.eqb (Alert.id x) b) eqn:Hb;
      simpl; by rewrite ?Ha, ?Hb.
Qed.

(** X18.  An alert whose id is not in the registry is put in front of it, as
    it was sent; the entries already there are kept as they are. *)
Theorem add_fresh_alert_prepends (alert : Alert.t) (prev : list Alert.t) :
  (∀ a, a ∈ prev → Alert.id a ≠ Alert.id alert) →
  onNewAlert alert prev = alert :: prev.
Proof. apply onNewAlert_fresh. Qed.

Lemma add_fresh_alert_prepends_witness :
  onNewAlert (Samples.alert "a3" false)
             [Samples.alert "a2" false; Samples.alert "a1" true]
  = [Samples.alert "a3" false; Samples.alert "a2" false; Samples.alert "a1" true].
Proof.
  apply (add_fresh_alert_prepends (Samples.alert "a3" false)
           [Samples.alert "a2" false; Samples.alert "a1" true]).
  intros a Ha. repeat (apply elem_of_cons in Ha as [-> | Ha]);
    [discriminate.. | by apply elem_of_nil in Ha].
Defined.

(** X19.  A resend of an alert changes nothing, also after the alert has been
    acknowledged: handling the alert, acknowledging or not, and handling it
    again gives the registry as it was before the resend. *)
Theorem add_alert_resend (alert : Alert.t) (prev : list Alert.t) :
  onNewAlert alert (onNewAlert alert prev) = onNewAlert alert prev ∧
  onNewAlert alert (acknowledgeAlert (Alert.id alert) (onNewAlert alert prev))
  = acknowledgeAlert (Alert.id alert) (onNewAlert alert prev).
Proof.
  assert (∃ a, a ∈ onNewAlert alert prev ∧ Alert.id a = Alert.id alert)
    as (a & Ha & Hid).
  { destruct (onNewAlert_cases alert prev) as [[-> Hex] | [-> _]]; [done|].
    exists alert. split; [left | done]. }
  split.
  - by eapply onNewAlert_known.
  - apply (onNewAlert_known _ _
             (Alert.mk (Alert.id a) (Alert.message a) true (Alert.createdAt a)));
      [|done].
    unfold acknowledgeAlert. apply list_elem_of_In, in_map_iff.
    exists a. split; [|by apply list_elem_of_In].
    rewrite Hid. by rewrite String.eqb_refl.
Qed.

(** ** Extrema cards and their tiers *)

Lemma highestTemp_Some (r : list MotorReading) (m : MotorReading) :
  highestTemp r = Some m → is_last_max temperature r m.
Proof.
  destruct r as [|a r]; [done|]. unfold highestTemp. simpl length. simpl Nat.eqb.
  destruct (reduce_max_is_last temperature (a :: r)) as (m' & -> & Hm'); [done|].
  by intros [= <-].
Qed.

Lemma lowestTemp_Some (r : list MotorReading) (m : MotorReading) :
  lowestTemp r = Some m → is_last_min temperature r m.
Proof.
  destruct r as [|a r]; [done|]. unfold lowestTemp. simpl length. simpl Nat.eqb.
  destruct (reduce_min_is_last temperature (a :: r)) as (m' & -> & Hm'); [done|].
  by intros [= <-].
Qed.

Lemma highestRpm_Some (r : list MotorReading) (m : MotorReading) :
  highestRpm r = Some m → is_last_max speed r m.
Proof.
  destruct r as [|a r]; [done|]. unfold highestRpm. simpl length. simpl Nat.eqb.
  destruct (reduce_max_is_last speed (a :: r)) as (m' & -> & Hm'); [done|].
  by intros [= <-].
Qed.

Lemma lowestRpm_Some (r : list MotorReading) (m : MotorReading) :
  lowestRpm r = Some m → is_last_min speed r m.
Proof.
  destruct r as [|a r]; [done|]. unfold lowestRpm. simpl length. simpl Nat.eqb.
  destruct (reduce_min_is_last speed (a :: r)) as (m' & -> & Hm'); [done|].
  by intros [= <-].
Qed.

Section ExtremumFacts.
Context {A : Type} (key : A → Q).

Lemma is_last_max_elem (l : list A) (m : A) : is_last_max key l m → m ∈ l.
Proof. intros (i & Hi & _). by eapply list_elem_of_lookup_2. Qed.

Lemma is_last_min_elem (l : list A) (m : A) : is_last_min key l m → m ∈ l.
Proof. intros (i & Hi & _). by eapply list_elem_of_lookup_2. Qed.

(** The largest key exceeds a threshold exactly when some key does, and
    stays under it exactly when all keys do. *)
Lemma max_above_iff (l : list A) (m : A) (c : Q) :
  is_last_max key l m → ((c < key m)%Q ↔ ∃ e, e ∈ l ∧ (c < key e)%Q).
Proof.
  intros Hm. split.
  - intros Hc. exists m. split; [by eapply is_last_max_elem | done].
  - intros (e & He & Hc). destruct Hm as (i & _ & Hmax & _).
    eapply Qlt_le_trans; [done | by apply Hmax].
Qed.

Lemma max_below_iff (l : list A) (m : A) (c : Q) :
  is_last_max key l m → ((key m <= c)%Q ↔ ∀ e, e ∈ l → (key e <= c)%Q).
Proof.
  intros Hm. split.
  - intros Hc e He. destruct Hm as (i & _ & Hmax & _).
    eapply Qle_trans; [by apply Hmax | done].
  - intros Hall. apply Hall. by eapply is_last_max_elem.
Qed.

Lemma min_below_iff (l : list A) (m : A) (c : Q) :
  is_last_min key l m → ((key m < c)%Q ↔ ∃ e, e ∈ l ∧ (key e < c)%Q).
Proof.
  intros Hm. split.
  - intros Hc. exists m. split; [by eapply is_last_min_elem | done].
  - intros (e & He & Hc). destruct Hm as (i & _ & Hmin & _).
    eapply Qle_lt_trans; [by apply Hmin | done].
Qed.

Lemma min_above_iff (l : list A) (m : A) (c : Q) :
  is_last_min key l m → ((c <= key m)%Q ↔ ∀ e, e ∈ l → (c <= key e)%Q).
Proof.
  intros Hm. split.
  - intros Hc e He. destruct Hm as (i & _ & Hmin & _).
    eapply Qle_trans; [done | by apply Hmin].
  - intros Hall. apply Hall. by eapply is_last_min_elem.
Qed.
End ExtremumFacts.

Lemma num_gt_true (a b : Q) : num_gt a b = true ↔ (b < a)%Q.
Proof. apply num_lt_true. Qed.

Lemma num_gt_false (a b : Q) : num_gt a b = false ↔ (a <= b)%Q.
Proof. apply num_lt_false. Qed.

(** The ends of the four ladders. *)
Lemma highTempTier_critical (t : Q) : highTempTier t = TempCritical ↔ (85 < t)%Q.
Proof.
  unfold highTempTier. rewrite <- num_gt_true.
  destruct (num_gt t 85); [done|]. by destruct (num_gt t 75).
Qed.

Lemma highTempTier_normal (t : Q) : highTempTier t = TempNormal ↔ (t <= 75)%Q.
Proof.
  unfold highTempTier. rewrite <- num_gt_false.
  destruct (num_gt t 85) eqn:H85, (num_gt t 75) eqn:H75; try done.
  apply num_gt_true in H85. apply num_gt_false in H75. lra.
Qed.

Lemma lowTempTier_cold (t : Q) : lowTempTier t = TempCold ↔ (t < 30)%Q.
Proof.
  unfold lowTempTier. rewrite <- num_lt_true.
  destruct (num_lt t 30); [done|]. by destruct (num_lt t 50).
Qed.

Lemma lowTempTier_warm (t : Q) : lowTempTier t = TempWarm ↔ (50 <= t)%Q.
Proof.
  unfold lowTempTier. rewrite <- num_lt_false.
  destruct (num_lt t 30) eqn:H30, (num_lt t 50) eqn:H50; try done.
  apply num_lt_true in H30. apply num_lt_false in H50. lra.
Qed.

Lemma highRpmTier_overload (v : Q) : highRpmTier v = RpmOverload ↔ (3000 < v)%Q.
Proof.
  unfold highRpmTier. rewrite <- num_gt_true.
  destruct (num_gt v 3000); [done|].
  by destruct (num_gt v 2500), (num_gt v 1500).
Qed.

Lemma highRpmTier_low (v : Q) : highRpmTier v = RpmLow ↔ (v <= 1500)%Q.
Proof.
  unfold highRpmTier. rewrite <- num_gt_false.
  destruct (num_gt v 3000) eqn:H1, (num_gt v 2500) eqn:H2, (num_gt v 1500) eqn:H3;
    try done;
    rewrite ?num_gt_true, ?num_gt_false in *; split; intros; try done; lra.
Qed.

Lemma lowRpmTier_stall (v : Q) : lowRpmTier v = RpmStallRisk ↔ (v < 500)%Q.
Proof.
  unfold lowRpmTier. rewrite <- num_lt_true.
  destruct (num_lt v 500); [done|].
  by destruct (num_lt v 1000), (num_lt v 1500).
Qed.

Lemma lowRpmTier_normal (v : Q) : lowRpmTier v = RpmNormal ↔ (1500 <= v)%Q.
Proof.
  unfold lowRpmTier. rewrite <- num_lt_false.
  destruct (num_lt v 500) eqn:H1, (num_lt v 1000) eqn:H2, (num_lt v 1500) eqn:H3;
    try done;
    rewrite ?num_lt_true, ?num_lt_false in *; split; intros; try done; lra.
Qed.

(** X20.  The badges of the temperature cards speak for the whole buffer.
    "Highest Temp" is critical exactly when some reading is above 85 and
    normal exactly when every reading is at most 75; "Lowest Temp" is cold
    exactly when some reading is below 30 and warm exactly when every reading
    is at least 50. *)
Theorem temperature_badges (r : list MotorReading) (hi lo : MotorReading) :
  highestTemp r = Some hi → lowestTemp r = Some lo →
  (highTempTier (temperature hi) = TempCritical
   ↔ ∃ e, e ∈ r ∧ (85 < temperature e)%Q) ∧
  (highTempTier (temperature hi) = TempNormal
   ↔ ∀ e, e ∈ r → (temperature e <= 75)%Q) ∧
  (lowTempTier (temperature lo) = TempCold
   ↔ ∃ e, e ∈ r ∧ (temperature e < 30)%Q) ∧
  (lowTempTier (temperature lo) = TempWarm
   ↔ ∀ e, e ∈ r → (50 <= temperature e)%Q).
Proof.
  intros Hhi%highestTemp_Some Hlo%lowestTemp_Some. split_and!.
  - rewrite highTempTier_critical. by apply max_above_iff.
  - rewrite highTempTier_normal. by apply max_below_iff.
  - rewrite lowTempTier_cold. by apply min_below_iff.
  - rewrite lowTempTier_warm. by apply min_above_iff.
Qed.

Lemma temperature_badges_witness :
  highTempTier (temperature Samples.hot2) = TempCritical
  ↔ ∃ e, e ∈ [Samples.hot1; Samples.cold; Samples.hot2] ∧ (85 < temperature e)%Q.
Proof.
  apply (temperature_badges [Samples.hot1; Samples.cold; Samples.hot2]
           Samples.hot2 Samples.cold); reflexivity.
Defined.

(** X21.  The badges of the speed cards speak for the whole buffer.
    "Highest RPM" shows overload exactly when some reading is above 3000 and
    low exactly when every reading is at most 1500; "Lowest RPM" shows stall
    risk exactly when some reading is below 500 and normal exactly when every
    reading is at least 1500. *)
Theorem speed_badges (r : list MotorReading) (hi lo : MotorReading) :
  highestRpm r = Some hi → lowestRpm r = Some lo →
  (highRpmTier (speed hi) = RpmOverload ↔ ∃ e, e ∈ r ∧ (3000 < speed e)%Q) ∧
  (highRpmTier (speed hi) = RpmLow ↔ ∀ e, e ∈ r → (speed e <= 1500)%Q) ∧
  (lowRpmTier (speed lo) = RpmStallRisk ↔ ∃ e, e ∈ r ∧ (speed e < 500)%Q) ∧
  (lowRpmTier (speed lo) = RpmNormal ↔ ∀ e, e ∈ r → (1500 <= speed e)%Q).
Proof.
  intros Hhi%highestRpm_Some Hlo%lowestRpm_Some. split_and!.
  - rewrite highRpmTier_overload. by apply max_above_iff.
  - rewrite highRpmTier_low. by apply max_below_iff.
  - rewrite lowRpmTier_stall. by apply min_below_iff.
  - rewrite lowRpmTier_normal. by apply min_above_iff.
Qed.

Lemma speed_badges_witness :
  lowRpmTier (speed Samples.hot1) = RpmNormal
  ↔ ∀ e, e ∈ [Samples.hot1; Samples.cold; Samples.hot2] → (1500 <= speed e)%Q.
Proof.
  apply (speed_badges [Samples.hot1; Samples.cold; Samples.hot2]
           Samples.hot2 Samples.hot1); reflexivity.
Defined.

Lemma highestTemp_None (r : list MotorReading) :
  highestTemp r = None → r = [].
Proof. by destruct r. Qed.

(** X22.  Each extremum card is missing exactly when the buffer is empty. *)
Theorem extrema_none_iff_empty (r : list MotorReading) :
  (highestTemp r = None ↔ r = []) ∧
  (lowestTemp r = None ↔ r = []) ∧
  (highestRpm r = None ↔ r = []) ∧
  (lowestRpm r = None ↔ r = []).
Proof.
  destruct r as [|a r]; [done|].
  unfold highestTemp, lowestTemp, highestRpm, lowestRpm. by simpl.
Qed.

Lemma extrema_none_iff_empty_witness :
  lowestRpm [] = None ∧ [Samples.A] ≠ [] ∧ lowestRpm [Samples.A] ≠ None.
Proof.
  split_and!.
  - by apply (proj2 (proj2 (proj2 (proj2 (extrema_none_iff_empty []))))).
  - discriminate.
  - intros Hnone.
    by apply (proj1 (proj2 (proj2 (proj2 (extrema_none_iff_empty [Samples.A]))))) in Hnone.
Defined.

(** X23.  On a non-empty buffer the lowest card never shows more than the
    highest card, for temperature and for speed. *)
Theorem lowest_le_highest (r : list MotorReading) :
  r ≠ [] →
  (∃ lo hi, lowestTemp r = Some lo ∧ highestTemp r = Some hi ∧
            (temperature lo <= temperature hi)%Q) ∧
  (∃ lo hi, lowestRpm r = Some lo ∧ highestRpm r = Some hi ∧
            (speed lo <= speed hi)%Q).
Proof.
  intros Hne. unfold highestTemp, lowestTemp, highestRpm, lowestRpm.
  rewrite (nonempty_length r Hne). split.
  - destruct (reduce_min_is_last temperature r Hne) as (lo & -> & Hlo).
    destruct (reduce_max_is_last temperature r Hne) as (hi & -> & Hhi).
    exists lo, hi. split_and!; [done..|].
    destruct Hhi as (_ & _ & Hmax & _). apply Hmax.
    by eapply is_last_min_elem.
  - destruct (reduce_min_is_last speed r Hne) as (lo & -> & Hlo).
    destruct (reduce_max_is_last speed r Hne) as (hi & -> & Hhi).
    exists lo, hi. split_and!; [done..|].
    destruct Hhi as (_ & _ & Hmax & _). apply Hmax.
    by eapply is_last_min_elem.
Qed.

Lemma lowest_le_highest_witness :
  ∃ lo hi, lowestTemp [Samples.hot1; Samples.cold; Samples.hot2] = Some lo ∧
           highestTemp [Samples.hot1; Samples.cold; Samples.hot2] = Some hi ∧
           (temperature lo <= temperature hi)%Q.
Proof.
  apply (lowest_le_highest [Samples.hot1; Samples.cold; Samples.hot2]).
  discriminate.
Defined.

Lemma onNewReading_elem (cap : Z) (x : MotorReading) (r : list MotorReading) :
  1 ≤ cap → x ∈ onNewReading cap x r.
Proof.
  intros Hcap.
  destruct (onNewReading_cases cap x r)
    as [(i & Hi & ->) | [(j & _ & Hj & ->) | (_ & _ & ->)]].
  - apply list_elem_of_insert. by eapply first_index_lt.
  - apply list_elem_of_insert. by eapply first_index_lt.
  - rewrite slice_prefix_nonneg by lia.
    destruct (Z.to_nat cap) as [|k] eqn:Hk; [lia|]. simpl. left.
Qed.

(** X24.  The advisory and the card agree: when a pushed reading raises the
    high-temperature advisory (above 80) and the capacity is at least one,
    the "Highest Temp" card computed from the new buffer exists and is not
    in the normal tier. *)
Theorem advisory_shows_on_card (cap : Z) (x : MotorReading) (r : list MotorReading) :
  raisesHighTempAdvisory x = true → 1 ≤ cap →
  ∃ hi, highestTemp (onNewReading cap x r) = Some hi ∧
        highTempTier (temperature hi) ≠ TempNormal.
Proof.
  intros Hraise%num_gt_true Hcap.
  pose proof (onNewReading_elem cap x r Hcap) as Hx.
  destruct (highestTemp (onNewReading cap x r)) as [hi|] eqn:Hhi.
  - exists hi. split; [done|]. intros Hnormal%highTempTier_normal.
    apply highestTemp_Some in Hhi as (_ & _ & Hmax & _).
    specialize (Hmax x Hx). lra.
  - apply highestTemp_None in Hhi. rewrite Hhi in Hx.
    by apply elem_of_nil in Hx.
Qed.

Lemma advisory_shows_on_card_witness :
  ∃ hi, highestTemp (onNewReading 2 Samples.hot1 [Samples.B; Samples.A]) = Some hi ∧
        highTempTier (temperature hi) ≠ TempNormal.
Proof.
  apply (advisory_shows_on_card 2 Samples.hot1 [Samples.B; Samples.A]);
    [reflexivity | lia].
Defined.

(** ** Reconnect policy: range and growth *)

(** X25.  Only the first retry is immediate; every later one waits between
    2 and 30 seconds, and a later attempt never waits less than an earlier
    one. *)
Theorem reconnect_delay_range_monotone :
  (∀ n, nextRetryDelayInMilliseconds n = 0%N ↔ n = 0%N) ∧
  (∀ n, (1 ≤ n)%N →
        (2000 ≤ nextRetryDelayInMilliseconds n ≤ 30000)%N) ∧
  (∀ n m, (n ≤ m)%N →
          (nextRetryDelayInMilliseconds n ≤ nextRetryDelayInMilliseconds m)%N).
Proof.
  assert (∀ n, (1 ≤ n)%N → (2 ≤ 2 ^ n)%N) as Hpow.
  { intros n Hn. change 2%N with (2 ^ 1)%N at 1.
    apply N.pow_le_mono_r; [done | lia]. }
  split_and!.
  - intros n. unfold nextRetryDelayInMilliseconds.
    destruct (N.eqb_spec n 0) as [->|Hn]; [done|].
    specialize (Hpow n ltac:(lia)). split; [lia | done].
  - intros n Hn. unfold nextRetryDelayInMilliseconds.
    destruct (N.eqb_spec n 0) as [->|_]; [lia|].
    specialize (Hpow n Hn). lia.
  - intros n m Hnm. unfold nextRetryDelayInMilliseconds.
    destruct (N.eqb_spec n 0) as [->|Hn]; [lia|].
    destruct (N.eqb_spec m 0) as [->|Hm]; [lia|].
    apply N.min_le_compat_r, N.mul_le_mono_l, N.pow_le_mono_r; [done | lia].
Qed.

Lemma reconnect_delay_range_monotone_witness :
  (2000 ≤ nextRetryDelayInMilliseconds 3 ≤ 30000)%N ∧
  (nextRetryDelayInMilliseconds 3 ≤ nextRetryDelayInMilliseconds 7)%N.
Proof.
  destruct reconnect_delay_range_monotone as (_ & Hrange & Hmono). split.
  - apply Hrange. lia.
  - apply Hmono. lia.
Defined.

(** ** The sample controls *)

(** What the handlers keep true of the control state. *)
Lemma controlStep_invariant (c : ControlState) (e : ControlEvent) :
  fastSpinCount c = sampleRequests c →
  (isGenerating c = true → (1 ≤ pendingTimers c)%N) →
  fastSpinCount (controlStep c e) = sampleRequests (controlStep c e) ∧
  (isGenerating (controlStep c e) = true → (1 ≤ pendingTimers (controlStep c e))%N).
Proof.
  intros Hcount Htimer. destruct e; simpl.
  - destruct (renderedGenerating c); simpl; [done|]. split; intros; lia.
  - destruct (N.eqb_spec (pendingTimers c) 0) as [H0|H0]; simpl; [done|].
    split; [done | discriminate].
  - split; [lia | done].
  - done.
Qed.

Lemma controlRun_invariant (es : list ControlEvent) (c : ControlState) :
  fastSpinCount c = sampleRequests c →
  (isGenerating c = true → (1 ≤ pendingTimers c)%N) →
  fastSpinCount (controlRun es c) = sampleRequests (controlRun es c) ∧
  (isGenerating (controlRun es c) = true → (1 ≤ pendingTimers (controlRun es c))%N).
Proof.
  revert c. induction es as [|e es IH]; intros c Hcount Htimer; [done|].
  destruct (controlStep_invariant c e Hcount Htimer) as [Hcount' Htimer'].
  by apply (IH (controlStep c e)).
Qed.

(** X26.  Every sample request is counted: through any sequence of clicks,
    timer expiries and mobile refreshes from the initial state,
    [fastSpinCount] equals the number of GET requests sent to the sample
    endpoint. *)
Theorem spins_count_sample_requests (es : list ControlEvent) :
  fastSpinCount (controlRun es initialControl)
  = sampleRequests (controlRun es initialControl).
Proof. by apply controlRun_invariant. Qed.

(** X27.  The generate button cannot stay disabled: through any sequence of
    clicks, renders, timer expiries and mobile refreshes from the initial
    state, whenever [isGenerating] is set at least one timer is pending to
    clear it.  (More than one can be pending when clicks arrive before a
    render.) *)
Theorem generating_has_pending_timer (es : list ControlEvent) :
  isGenerating (controlRun es initialControl) = true →
  (1 ≤ pendingTimers (controlRun es initialControl))%N.
Proof. by apply controlRun_invariant. Qed.

Lemma generating_has_pending_timer_witness :
  (1 ≤ pendingTimers
         (controlRun [GenerateClicked; GenerateClicked; GenerateTimerFired;
                      Rendered; GenerateClicked] initialControl))%N.
Proof.
  apply (generating_has_pending_timer
           [GenerateClicked; GenerateClicked; GenerateTimerFired;
            Rendered; GenerateClicked]).
  reflexivity.
Defined.

Lemma controlRun_cons (e : ControlEvent) (es : list ControlEvent) (c : ControlState) :
  controlRun (e :: es) c = controlRun es (controlStep c e).
Proof. done. Qed.

Lemma clicks_on_rendered_disabled (n : nat) (c : ControlState) :
  renderedGenerating c = true → controlRun (replicate n GenerateClicked) c = c.
Proof.
  intros Hgen. induction n as [|n IH]; [done|].
  change (replicate (S n) GenerateClicked)
    with (GenerateClicked :: replicate n GenerateClicked).
  rewrite controlRun_cons.
  assert (controlStep c GenerateClicked = c) as ->; [|done].
  simpl. by rewrite Hgen.
Qed.

(** X28.  Once a render has shown the button as generating, clicks are
    dropped: on a button that is idle and rendered as idle, a click, the
    render that follows it and then any number of further clicks have the
    effect of the one click and the render. *)
Theorem clicks_after_render_are_dropped (n : nat) (c : ControlState) :
  isGenerating c = false → renderedGenerating c = false →
  controlRun (GenerateClicked :: Rendered :: replicate n GenerateClicked) c
  = mkControl true true (fastSpinCount c + 1) (sampleRequests c + 1)
              (pendingTimers c + 1).
Proof.
  intros Hidle Hrendered. rewrite !controlRun_cons.
  rewrite clicks_on_rendered_disabled; simpl; by rewrite Hrendered.
Qed.

Lemma clicks_after_render_are_dropped_witness :
  controlRun (GenerateClicked :: Rendered :: replicate 5 GenerateClicked)
             initialControl
  = mkControl true true 1 1 1.
Proof.
  apply (clicks_after_render_are_dropped 5 initialControl); reflexivity.
Defined.

Lemma clicks_before_render (n : nat) (c : ControlState) :
  renderedGenerating c = false →
  let c' := controlRun (replicate n GenerateClicked) c in
  renderedGenerating c' = false ∧
  fastSpinCount c' = (fastSpinCount c + N.of_nat n)%N ∧
  sampleRequests c' = (sampleRequests c + N.of_nat n)%N ∧
  pendingTimers c' = (pendingTimers c + N.of_nat n)%N ∧
  (isGenerating c' = if (n =? 0)%nat then isGenerating c else true).
Proof.
  revert c. induction n as [|n IH]; intros c Hrendered.
  - simpl. split_and!; (done || lia).
  - change (replicate (S n) GenerateClicked)
      with (GenerateClicked :: replicate n GenerateClicked).
    rewrite controlRun_cons.
    assert (controlStep c GenerateClicked
            = mkControl true false (fastSpinCount c + 1) (sampleRequests c + 1)
                        (pendingTimers c + 1)) as ->.
    { simpl. by rewrite Hrendered. }
    destruct (IH (mkControl true false (fastSpinCount c + 1) (sampleRequests c + 1)
                            (pendingTimers c + 1)) eq_refl)
      as (Hr & Hf & Hs & Hp & Hg).
    simpl in *. split_and!; [done | lia | lia | lia |].
    rewrite Hg. by destruct (n =? 0)%nat.
Qed.

(** X30.  The guard reads the flag of the last render, so clicks that
    arrive before the component has re-rendered all pass it: [n] clicks in a
    row on a button rendered as idle send [n] requests, count [n] spins and
    set [n] timers. *)
Theorem clicks_before_render_all_pass (n : nat) (c : ControlState) :
  renderedGenerating c = false →
  sampleRequests (controlRun (replicate n GenerateClicked) c)
  = (sampleRequests c + N.of_nat n)%N ∧
  fastSpinCount (controlRun (replicate n GenerateClicked) c)
  = (fastSpinCount c + N.of_nat n)%N ∧
  pendingTimers (controlRun (replicate n GenerateClicked) c)
  = (pendingTimers c + N.of_nat n)%N.
Proof.
  intros Hrendered.
  destruct (clicks_before_render n c Hrendered) as (_ & Hf & Hs & Hp & _).
  done.
Qed.

Lemma clicks_before_render_all_pass_witness :
  sampleRequests (controlRun (replicate 5 GenerateClicked) initialControl) = 5%N ∧
  fastSpinCount (controlRun (replicate 5 GenerateClicked) initialControl) = 5%N ∧
  pendingTimers (controlRun (replicate 5 GenerateClicked) initialControl) = 5%N.
Proof.
  apply (clicks_before_render_all_pass 5 initialControl). reflexivity.
Defined.

(** ** Where timestamps stop being unique *)

(** X29.  When the incoming id is in the buffer while an entry with another
    id carries the incoming timestamp, the buffer afterwards holds that
    timestamp twice: the id match overwrites its entry and leaves the other
    one in place. *)
Theorem id_match_can_duplicate_timestamp
    (cap : Z) (x e y : MotorReading) (r : list MotorReading) :
  e ∈ r → id e = id x →
  y ∈ r → id y ≠ id x → timestamp y = timestamp x →
  ¬ NoDup (timestamp <$> onNewReading cap x r).
Proof.
  intros He Hide Hy Hidy Hts. apply timestamp_clash_breaks_uniqueness.
  unfold timestamp_clash. apply andb_true_iff. split.
  - apply existsb_exists. exists e.
    split; [by apply list_elem_of_In | by apply has_id_true].
  - apply existsb_exists. exists y. split; [by apply list_elem_of_In|].
    apply andb_true_iff. split.
    + apply negb_true_iff. by apply has_id_false.
    + by apply has_timestamp_true.
Qed.

Lemma id_match_can_duplicate_timestamp_witness :
  ¬ NoDup (timestamp <$> onNewReading 100 Samples.X [Samples.B; Samples.A]).
Proof.
  apply (id_match_can_duplicate_timestamp 100 Samples.X Samples.A Samples.B).
  - right. left.
  - reflexivity.
  - left.
  - discriminate.
  - reflexivity.
Defined.
